(** * 4TML chat client: the asynchronous job lifecycle of [script.js]

    A shallow embedding of the browser script that submits a prompt or a
    file to the backend, polls [/api/check_status] every two seconds,
    fetches the answer five seconds after submission and gates the download
    button on the reconciled status.

    The repository holds two revisions of the script.  They share the
    lifecycle code and differ in [handleFileSelection] (extension check,
    [reader.onerror]), in how the answer is rendered and in the timers of
    the download handler.  The embedding is parameterised by [variant] and
    branches exactly where the two files differ.

    JavaScript's event loop is modelled as a transition system.  Every
    callback body, and every segment of an [async] function between two
    [await]s, is one atomic state transformer; timers and in-flight
    requests are data in the state; the environment (user, clock, backend)
    picks the next [event].  A run is a list of events. *)

From Stdlib Require Import List String Ascii Arith NArith Bool Lia.
Import ListNotations.
Local Open Scope string_scope.
Local Open Scope list_scope.
Local Open Scope N_scope.

(** ** Data *)

(** The two revisions of the script under [src/]. *)
Inductive variant := ScriptJs | Part000.

Inductive sender := User | Ai.

(** Texts given to [createMessageElement] / [createFormattedMessage]. *)
Inductive message :=
| MText (text : string)                 (* sendMessage: the trimmed prompt *)
| MUpload (name : string) (size : N)    (* `Đang tải tệp: ${file.name} (...)...` *)
| MPlaceholder                          (* "⏳ Đang gửi yêu cầu... Vui lòng chờ kết quả từ AI Agent..." *)
| MResponse (text : option string)      (* data.ai_response_text, [None] when the field is absent *)
| MBackendError.                        (* "❌ Lỗi: Không thể kết nối hoặc xử lý dữ liệu từ Backend." *)

(** Children of [chatWindow]. *)
Inductive content :=
| Welcome                                         (* #welcomeMessage *)
| Plain (who : sender) (m : message)              (* createMessageElement *)
| FormattedMessage (who : sender) (text : string) (* createFormattedMessage *)
| TypingDots.                                     (* showTypingIndicator *)

Record element := { el_id : N; el_body : content }.

(** Values written to [processingStatusArea]. *)
Inductive status_text :=
| StEmpty                            (* '' *)
| StPreparing                        (* '⏳ Chuẩn bị dữ liệu...' *)
| StCompleted (ts : option string)   (* `✅ **Xử lý hoàn tất** - ${new Date(ts).toLocaleTimeString()}` *)
| StFailed (ts : option string)      (* `❌ **Xử lý thất bại** - ${new Date(ts).toLocaleTimeString()}` *)
| StProcessing (clock : N)           (* `⏳ **Agent đang xử lý**... (${new Date().toLocaleTimeString()})` *)
| StReady                            (* `🌐 **Sẵn sàng**` *)
| StBackendError                     (* `⚠️ **Lỗi kết nối Backend**` *)
| StDownloading                      (* '📥 Đang tải file output.txt...' *)
| StDownloaded.                      (* '✅ Đã tải xuống thành công!' *)

(** Dialogs opened with [alert]. *)
Inductive dialog :=
| DlgProcessing      (* download: status is 'processing' *)
| DlgFailed          (* download: status is 'failed' *)
| DlgNotCreated      (* download: get_output reports no file *)
| DlgConnection      (* download: catch block *)
| DlgBadExtension    (* handleFileSelection, second revision only *)
| DlgTooLarge        (* handleFileSelection *)
| DlgReadError.      (* reader.onerror, second revision only *)

(** *** Backend answers *)

(** Body of [GET /api/check_status]; a field is [None] when it is absent
    or not a string. *)
Record status_data := { status : option string; timestamp : option string }.

(** Outcome of [await fetch(..)] followed by [await response.json()] and the
    first property access: [Threw] stands for a rejected fetch, a body that
    is not JSON, or a body that is [null]. *)
Inductive fetched (A : Type) := Threw | Json (a : A).
Arguments Threw {A}.
Arguments Json {A} a.

(** Outcome of the POST to [/api/process_prompt]: the fetch rejects, or it
    resolves with [response.ok] and a body whose [ai_response_text] is read. *)
Inductive post_response :=
| PostRejected
| PostHttp (ok : bool) (body : fetched (option string)).

Inductive response :=
| RStatus (r : fetched status_data)
| RPost (r : post_response)
| RProbe (r : fetched bool).       (* truthiness of checkData.success *)

Inductive request :=
| CheckStatus                                              (* GET /api/check_status *)
| GetOutput                                                (* GET /api/get_output *)
| ProcessPrompt (prompt file_data : option string).        (* POST /api/process_prompt *)

(** *** Suspended computations *)

(** The point at which an [async] function waits for a response.  A job is
    one invocation of [startProcessingFlow]; its number names the closure. *)
Inductive kont :=
| KPoll (job : N)          (* interval callback, after fetch(check_status) *)
| KSubmit (job : N)        (* simulateAIResponse, after fetch(process_prompt) *)
| KFinal (job : N)         (* timeout callback, after the last fetch(check_status) *)
| KDownloadStatus          (* download handler, after fetch(check_status) *)
| KDownloadProbe.          (* download handler, after fetch(get_output) *)

(** Timer handles.  The handles returned by [setInterval] / [setTimeout] are
    opaque and pairwise distinct; here each one is named by the call that
    created it. *)
Inductive timer_id :=
| CheckStatusInterval (job : N)   (* setInterval(.., 2000) *)
| FinalizeTimeout (job : N)       (* setTimeout(.., 5000) *)
| DownloadedTimeout (n : N)       (* setTimeout(.., 1000) in the download handler *)
| ClearStatusTimeout (n : N).     (* setTimeout(.., 3000), second revision only *)

Definition timer_id_eqb (a b : timer_id) : bool :=
  match a, b with
  | CheckStatusInterval i, CheckStatusInterval j => i =? j
  | FinalizeTimeout i, FinalizeTimeout j => i =? j
  | DownloadedTimeout i, DownloadedTimeout j => i =? j
  | ClearStatusTimeout i, ClearStatusTimeout j => i =? j
  | _, _ => false
  end.

(** Variables captured by the two callbacks of [startProcessingFlow].
    [submittedAt] is not in the source: it records the clock at the call. *)
Record closure := {
  userPrompt : option string;
  fileDataBase64 : option string;
  initialResponseElement : N;
  typingIndicator : N;
  processingDone : bool;
  submittedAt : N
}.

Record file := { name : string; size : N }.

(** *** Observations *)

(** Who wrote the status line. *)
Inductive origin :=
| ByStart (job : N) | ByPoll (job : N) | ByFinalize (job : N)
| ByReset | ByDownload.

Inductive obs :=
| Fetch (rid : N) (k : kont) (req : request)   (* a request leaves the page *)
| Received (k : kont) (r : response)           (* its answer resumes [k] *)
| StatusText (by_ : origin) (txt : status_text)
| DownloadDisplay (by_ : origin) (shown : bool) (* downloadOutputBtn.style.display = .. *)
| ChatAppend (e : element)
| Alert (d : dialog)
| ConsoleError
| Navigate                                     (* window.location.href = .../api/download_output *)
| UnhandledRejection (k : kont).               (* an exception leaves an async callback *)

(** ** State of the page *)

Record state := {
  now : N;                                 (* milliseconds *)
  chatInput : string;                      (* chatInput.value *)
  welcomeDisplay : bool;                   (* welcomeMessage.style.display, true = shown *)
  chatWindow : list element;
  downloadOutputBtn : bool;                (* style.display, true = 'flex', false = 'none' *)
  processingStatusArea : status_text;
  timers : list (timer_id * N);            (* handle, due time *)
  pending : list (N * kont);               (* request number, who awaits it *)
  readers : list (N * file);               (* FileReaders that have not called back yet *)
  closures : list (N * closure);
  next_id : N;                             (* source of fresh numbers *)
  log : list (N * obs)                     (* newest first, with the clock *)
}.

Definition welcomeMessage : element := {| el_id := 0; el_body := Welcome |}.

(** Modelled from the spec: [index.html] is not among the sources, so the
    page after [DOMContentLoaded] is taken from the spec's [Idle] state: the
    welcome message is shown, the download action is hidden, the status
    line is empty and nothing is armed. *)
Definition init : state := {|
  now := 0; chatInput := ""; welcomeDisplay := true;
  chatWindow := [welcomeMessage]; downloadOutputBtn := false;
  processingStatusArea := StEmpty; timers := []; pending := [];
  readers := []; closures := []; next_id := 1; log := []
|}.

Section Setters.
Variable s : state.

Definition set_now x := {|
  now := x; chatInput := chatInput s; welcomeDisplay := welcomeDisplay s;
  chatWindow := chatWindow s; downloadOutputBtn := downloadOutputBtn s;
  processingStatusArea := processingStatusArea s; timers := timers s;
  pending := pending s; readers := readers s; closures := closures s;
  next_id := next_id s; log := log s |}.
Definition set_chatInput x := {|
  now := now s; chatInput := x; welcomeDisplay := welcomeDisplay s;
  chatWindow := chatWindow s; downloadOutputBtn := downloadOutputBtn s;
  processingStatusArea := processingStatusArea s; timers := timers s;
  pending := pending s; readers := readers s; closures := closures s;
  next_id := next_id s; log := log s |}.
Definition set_welcomeDisplay x := {|
  now := now s; chatInput := chatInput s; welcomeDisplay := x;
  chatWindow := chatWindow s; downloadOutputBtn := downloadOutputBtn s;
  processingStatusArea := processingStatusArea s; timers := timers s;
  pending := pending s; readers := readers s; closures := closures s;
  next_id := next_id s; log := log s |}.
Definition set_chatWindow x := {|
  now := now s; chatInput := chatInput s; welcomeDisplay := welcomeDisplay s;
  chatWindow := x; downloadOutputBtn := downloadOutputBtn s;
  processingStatusArea := processingStatusArea s; timers := timers s;
  pending := pending s; readers := readers s; closures := closures s;
  next_id := next_id s; log := log s |}.
Definition set_downloadOutputBtn x := {|
  now := now s; chatInput := chatInput s; welcomeDisplay := welcomeDisplay s;
  chatWindow := chatWindow s; downloadOutputBtn := x;
  processingStatusArea := processingStatusArea s; timers := timers s;
  pending := pending s; readers := readers s; closures := closures s;
  next_id := next_id s; log := log s |}.
Definition set_processingStatusArea x := {|
  now := now s; chatInput := chatInput s; welcomeDisplay := welcomeDisplay s;
  chatWindow := chatWindow s; downloadOutputBtn := downloadOutputBtn s;
  processingStatusArea := x; timers := timers s;
  pending := pending s; readers := readers s; closures := closures s;
  next_id := next_id s; log := log s |}.
Definition set_timers x := {|
  now := now s; chatInput := chatInput s; welcomeDisplay := welcomeDisplay s;
  chatWindow := chatWindow s; downloadOutputBtn := downloadOutputBtn s;
  processingStatusArea := processingStatusArea s; timers := x;
  pending := pending s; readers := readers s; closures := closures s;
  next_id := next_id s; log := log s |}.
Definition set_pending x := {|
  now := now s; chatInput := chatInput s; welcomeDisplay := welcomeDisplay s;
  chatWindow := chatWindow s; downloadOutputBtn := downloadOutputBtn s;
  processingStatusArea := processingStatusArea s; timers := timers s;
  pending := x; readers := readers s; closures := closures s;
  next_id := next_id s; log := log s |}.
Definition set_readers x := {|
  now := now s; chatInput := chatInput s; welcomeDisplay := welcomeDisplay s;
  chatWindow := chatWindow s; downloadOutputBtn := downloadOutputBtn s;
  processingStatusArea := processingStatusArea s; timers := timers s;
  pending := pending s; readers := x; closures := closures s;
  next_id := next_id s; log := log s |}.
Definition set_closures x := {|
  now := now s; chatInput := chatInput s; welcomeDisplay := welcomeDisplay s;
  chatWindow := chatWindow s; downloadOutputBtn := downloadOutputBtn s;
  processingStatusArea := processingStatusArea s; timers := timers s;
  pending := pending s; readers := readers s; closures := x;
  next_id := next_id s; log := log s |}.
Definition set_next_id x := {|
  now := now s; chatInput := chatInput s; welcomeDisplay := welcomeDisplay s;
  chatWindow := chatWindow s; downloadOutputBtn := downloadOutputBtn s;
  processingStatusArea := processingStatusArea s; timers := timers s;
  pending := pending s; readers := readers s; closures := closures s;
  next_id := x; log := log s |}.
Definition set_log x := {|
  now := now s; chatInput := chatInput s; welcomeDisplay := welcomeDisplay s;
  chatWindow := chatWindow s; downloadOutputBtn := downloadOutputBtn s;
  processingStatusArea := processingStatusArea s; timers := timers s;
  pending := pending s; readers := readers s; closures := closures s;
  next_id := next_id s; log := x |}.
End Setters.

(** ** Strings *)

(** A JavaScript string is held as the UTF-8 form of its text, one [ascii]
    per byte, which is also how the literals of this file are read: the
    characters below U+0080 take one byte each, the others two to four
    bytes that all lie above 127 (U+00A0 is the two bytes 194 160, never
    the single byte 160).  Bytes that are no well-formed UTF-8 stand for
    no JavaScript string. *)

Module Str.

(** [String.prototype.toLowerCase] on the ASCII letters; other bytes are
    left alone. *)
Definition lower_ascii (c : ascii) : ascii :=
  let n := N_of_ascii c in
  if (65 <=? n) && (n <=? 90) then ascii_of_N (n + 32) else c.

Fixpoint toLowerCase (s : string) : string :=
  match s with
  | EmptyString => EmptyString
  | String c r => String (lower_ascii c) (toLowerCase r)
  end.

(** [s.lastIndexOf(c)], [None] for -1. *)
Fixpoint lastIndexOf (c : ascii) (s : string) : option nat :=
  match s with
  | EmptyString => None
  | String a r =>
      match lastIndexOf c r with
      | Some i => Some (S i)
      | None => if Ascii.eqb a c then Some O else None
      end
  end.

Fixpoint drop (n : nat) (s : string) : string :=
  match n, s with
  | O, _ => s
  | S _, EmptyString => EmptyString
  | S m, String _ r => drop m r
  end.

(** [s.substring(i)]: a negative start is clamped to 0. *)
Definition substring (i : option nat) (s : string) : string :=
  match i with
  | None => s
  | Some n => drop n s
  end.

Definition includes (l : list string) (x : string) : bool :=
  existsb (String.eqb x) l.

(** What [String.prototype.trim] strips: the code points of ECMAScript's
    WhiteSpace (TAB, VT, FF, ZWNBSP and Unicode's Space_Separator
    category) and LineTerminator (LF, CR, LS, PS). *)
Definition is_space (cp : N) : bool :=
  ((9 <=? cp) && (cp <=? 13))                (* TAB, LF, VT, FF, CR *)
  || (cp =? 0x20)                            (* SPACE *)
  || (cp =? 0xA0)                            (* NO-BREAK SPACE *)
  || (cp =? 0x1680)                          (* OGHAM SPACE MARK *)
  || ((0x2000 <=? cp) && (cp <=? 0x200A))    (* EN QUAD .. HAIR SPACE *)
  || (cp =? 0x2028) || (cp =? 0x2029)        (* LINE, PARAGRAPH SEPARATOR *)
  || (cp =? 0x202F)                          (* NARROW NO-BREAK SPACE *)
  || (cp =? 0x205F)                          (* MEDIUM MATHEMATICAL SPACE *)
  || (cp =? 0x3000)                          (* IDEOGRAPHIC SPACE *)
  || (cp =? 0xFEFF).                         (* ZERO WIDTH NO-BREAK SPACE *)

(** A byte of the form 10xxxxxx, and its six bits. *)
Definition continuation (c : ascii) : option N :=
  let n := N_of_ascii c in
  if (0x80 <=? n) && (n <? 0xC0) then Some (n - 0x80) else None.

(** The character that [s] starts with: its code point and the number of
    bytes it takes.  [None] when [s] is empty or does not start with a
    well-formed UTF-8 sequence (a stray continuation byte, a truncated or
    an overlong form). *)
Definition decode (s : string) : option (N * nat) :=
  match s with
  | EmptyString => None
  | String a r =>
      let a := N_of_ascii a in
      if a <? 0x80 then Some (a, 1%nat)
      else if a <? 0xC0 then None
      else if a <? 0xE0 then
        match r with
        | String b _ =>
            match continuation b with
            | Some b =>
                let cp := (a - 0xC0) * 64 + b in
                if 0x80 <=? cp then Some (cp, 2%nat) else None
            | None => None
            end
        | _ => None
        end
      else if a <? 0xF0 then
        match r with
        | String b (String c _) =>
            match continuation b, continuation c with
            | Some b, Some c =>
                let cp := (a - 0xE0) * 4096 + b * 64 + c in
                if 0x800 <=? cp then Some (cp, 3%nat) else None
            | _, _ => None
            end
        | _ => None
        end
      else if a <? 0xF8 then
        match r with
        | String b (String c (String d _)) =>
            match continuation b, continuation c, continuation d with
            | Some b, Some c, Some d =>
                let cp := (a - 0xF0) * 262144 + b * 4096 + c * 64 + d in
                if (0x10000 <=? cp) && (cp <? 0x110000) then Some (cp, 4%nat) else None
            | _, _, _ => None
            end
        | _ => None
        end
      else None
  end.

(** The number of bytes of the white-space character that [s] starts
    with; 0 when it starts with none. *)
Definition space_width (s : string) : nat :=
  match decode s with
  | Some (cp, n) => if is_space cp then n else O
  | None => O
  end.

(** The rest of [s] after the white-space character it starts with; a
    white-space character takes one to three bytes. *)
Definition strip (s : string) : option string :=
  match space_width s, s with
  | 1%nat, String _ r => Some r
  | 2%nat, String _ (String _ r) => Some r
  | 3%nat, String _ (String _ (String _ r)) => Some r
  | _, _ => None
  end.

(** [s.trimStart()]: drops white-space characters while [s] starts with
    one. *)
Fixpoint trimStart (s : string) : string :=
  match s with
  | EmptyString => EmptyString
  | String _ r1 =>
      match space_width s with
      | 1%nat => trimStart r1
      | 2%nat => match r1 with String _ r2 => trimStart r2 | _ => s end
      | 3%nat => match r1 with String _ (String _ r3) => trimStart r3 | _ => s end
      | _ => s
      end
  end.

(** [s] is made of white-space characters only. *)
Fixpoint all_space (s : string) : bool :=
  match s with
  | EmptyString => true
  | String _ r1 =>
      match space_width s with
      | 1%nat => all_space r1
      | 2%nat => match r1 with String _ r2 => all_space r2 | _ => false end
      | 3%nat => match r1 with String _ (String _ r3) => all_space r3 | _ => false end
      | _ => false
      end
  end.

(** [s.trimEnd()]: cuts [s] where what is left of it is white space only.
    The rest of a string taken inside a character starts with a
    continuation byte and is no white space, so the cut falls between two
    characters. *)
Fixpoint trimEnd (s : string) : string :=
  match s with
  | EmptyString => EmptyString
  | String c r => if all_space s then EmptyString else String c (trimEnd r)
  end.

Definition trim (s : string) : string := trimEnd (trimStart s).

(** The UTF-8 form of a code point, and of a list of them. *)
Definition encode (cp : N) : string :=
  if cp <? 0x80 then String (ascii_of_N cp) EmptyString
  else if cp <? 0x800 then
    String (ascii_of_N (0xC0 + cp / 64))
      (String (ascii_of_N (0x80 + cp mod 64)) EmptyString)
  else if cp <? 0x10000 then
    String (ascii_of_N (0xE0 + cp / 4096))
      (String (ascii_of_N (0x80 + (cp / 64) mod 64))
         (String (ascii_of_N (0x80 + cp mod 64)) EmptyString))
  else
    String (ascii_of_N (0xF0 + cp / 262144))
      (String (ascii_of_N (0x80 + (cp / 4096) mod 64))
         (String (ascii_of_N (0x80 + (cp / 64) mod 64))
            (String (ascii_of_N (0x80 + cp mod 64)) EmptyString))).

Definition utf8 (cps : list N) : string :=
  fold_right (fun cp s => (encode cp ++ s)%string) EmptyString cps.

Definition isEmpty (s : string) : bool :=
  match s with EmptyString => true | _ => false end.

Fixpoint endsWith (suffix s : string) : bool :=
  String.eqb s suffix ||
  match s with
  | EmptyString => false
  | String _ r => endsWith suffix r
  end.

End Str.

(** ** Browser primitives *)

Section Primitives.

(** The log is not in the source: it records, with the clock, what the
    page did, so that properties of a whole run can be stated. *)
Definition observe (o : obs) (s : state) : state :=
  set_log s ((now s, o) :: log s).

(** [fetch(url, ..)]: the request leaves at once and the caller is
    suspended at [k] until the answer is delivered. *)
Definition fetch (k : kont) (req : request) (s : state) : state :=
  let rid := next_id s in
  let s := set_next_id s (N.succ rid) in
  let s := set_pending s (pending s ++ [(rid, k)]) in
  observe (Fetch rid k req) s.

Definition alert (d : dialog) (s : state) : state := observe (Alert d) s.

Definition setStatus (by_ : origin) (txt : status_text) (s : state) : state :=
  observe (StatusText by_ txt) (set_processingStatusArea s txt).

Definition setDownloadDisplay (by_ : origin) (shown : bool) (s : state) : state :=
  observe (DownloadDisplay by_ shown) (set_downloadOutputBtn s shown).

(** [chatWindow.appendChild(el)] for a new element. *)
Definition appendChild (body : content) (s : state) : N * state :=
  let id := next_id s in
  let e := {| el_id := id; el_body := body |} in
  let s := set_next_id s (N.succ id) in
  let s := set_chatWindow s (chatWindow s ++ [e]) in
  (id, observe (ChatAppend e) s).

(** [if (el.parentElement) chatWindow.removeChild(el)]: elements are
    either children of [chatWindow] or detached. *)
Definition removeIfAttached (id : N) (s : state) : state :=
  set_chatWindow s (filter (fun e => negb (el_id e =? id)) (chatWindow s)).

Definition setTimer (t : timer_id) (delay : N) (s : state) : state :=
  set_timers s (timers s ++ [(t, now s + delay)]).

(** [clearInterval(h)] / [clearTimeout(h)]. *)
Definition clearTimer (t : timer_id) (s : state) : state :=
  set_timers s (filter (fun e => negb (timer_id_eqb (fst e) t)) (timers s)).

(** Takes the first entry with the given key out of a list. *)
Fixpoint take {K V : Type} (eqb : K -> K -> bool) (k : K) (l : list (K * V))
  : option (V * list (K * V)) :=
  match l with
  | [] => None
  | (k', v) :: r =>
      if eqb k' k then Some (v, r)
      else match take eqb k r with
           | Some (v', r') => Some (v', (k', v) :: r')
           | None => None
           end
  end.

Fixpoint lookup {V : Type} (k : N) (l : list (N * V)) : option V :=
  match l with
  | [] => None
  | (k', v) :: r => if k' =? k then Some v else lookup k r
  end.

Fixpoint update {V : Type} (k : N) (f : V -> V) (l : list (N * V)) : list (N * V) :=
  match l with
  | [] => []
  | (k', v) :: r => if k' =? k then (k', f v) :: r else (k', v) :: update k f r
  end.

End Primitives.

(** ** The script's functions *)

Definition createMessageElement (m : message) (who : sender) (s : state) : N * state :=
  appendChild (Plain who m) s.

(** [parseMarkdownToHTML] is presentation only; the element keeps the text. *)
Definition createFormattedMessage (text : string) (who : sender) (s : state) : N * state :=
  appendChild (FormattedMessage who text) s.

Definition showTypingIndicator (s : state) : N * state :=
  appendChild TypingDots s.

Definition status_is (d : status_data) (x : string) : bool :=
  match status d with
  | Some y => String.eqb y x
  | None => false
  end.

(** *** startProcessingFlow *)

Definition startProcessingFlow (userPrompt fileDataBase64 : option string)
    (s : state) : state :=
  let job := next_id s in
  let s := set_next_id s (N.succ job) in
  let s := setDownloadDisplay (ByStart job) false s in
  let s := setStatus (ByStart job) StPreparing s in
  let '(initialResponseElement, s) := createMessageElement MPlaceholder Ai s in
  let '(typingIndicator, s) := showTypingIndicator s in
  let c := {| userPrompt := userPrompt; fileDataBase64 := fileDataBase64;
              initialResponseElement := initialResponseElement;
              typingIndicator := typingIndicator;
              processingDone := false; submittedAt := now s |} in
  let s := set_closures s ((job, c) :: closures s) in
  let s := setTimer (CheckStatusInterval job) 2000 s in
  setTimer (FinalizeTimeout job) 5000 s.

(** The interval callback up to its first [await]. *)
Definition checkStatus_tick (job : N) (s : state) : option state :=
  match lookup job (closures s) with
  | None => None
  | Some c =>
      if processingDone c
      then Some (clearTimer (CheckStatusInterval job) s)
      else Some (fetch (KPoll job) CheckStatus s)
  end.

(** The interval callback after [await statusResponse.json()]. *)
Definition checkStatus_resume (job : N) (r : fetched status_data) (s : state) : state :=
  match r with
  | Json statusData =>
      if status_is statusData "completed" then
        setStatus (ByPoll job) (StCompleted (timestamp statusData)) s
      else if status_is statusData "failed" then
        setStatus (ByPoll job) (StFailed (timestamp statusData)) s
      else if status_is statusData "processing" then
        setStatus (ByPoll job) (StProcessing (now s)) s
      else
        setStatus (ByPoll job) StReady s
  | Threw => setStatus (ByPoll job) StBackendError s
  end.

(** [simulateAIResponse] up to [await fetch(.., {method: 'POST', ..})]. *)
Definition simulateAIResponse (job : N) (userPrompt fileDataBase64 : option string)
    (s : state) : state :=
  fetch (KSubmit job) (ProcessPrompt userPrompt fileDataBase64) s.

Definition simulateAIResponse_catch (s : state) : state :=
  snd (createMessageElement MBackendError Ai (observe ConsoleError s)).

(** [simulateAIResponse] after the POST settles.  In the second revision an
    absent [ai_response_text] makes [parseMarkdownToHTML] throw before the
    element is attached, which lands in the same catch block. *)
Definition simulateAIResponse_resume (v : variant) (r : post_response) (s : state) : state :=
  match r with
  | PostRejected => simulateAIResponse_catch s
  | PostHttp false _ => simulateAIResponse_catch s
  | PostHttp true Threw => simulateAIResponse_catch s
  | PostHttp true (Json text) =>
      match v, text with
      | ScriptJs, _ => snd (createMessageElement (MResponse text) Ai s)
      | Part000, Some t => snd (createFormattedMessage t Ai s)
      | Part000, None => simulateAIResponse_catch s
      end
  end.

(** The timeout callback up to the [await] inside [simulateAIResponse]. *)
Definition finalize_timeout (job : N) (s : state) : option state :=
  match lookup job (closures s) with
  | None => None
  | Some c =>
      let s := set_closures s
                 (update job (fun c => {| userPrompt := userPrompt c;
                                          fileDataBase64 := fileDataBase64 c;
                                          initialResponseElement := initialResponseElement c;
                                          typingIndicator := typingIndicator c;
                                          processingDone := true;
                                          submittedAt := submittedAt c |})
                         (closures s)) in
      let s := clearTimer (CheckStatusInterval job) s in
      let s := removeIfAttached (initialResponseElement c) s in
      let s := removeIfAttached (typingIndicator c) s in
      Some (simulateAIResponse job (userPrompt c) (fileDataBase64 c) s)
  end.

(** The timeout callback between [await simulateAIResponse(..)] and
    [await fetch(check_status)]. *)
Definition finalize_afterSubmit (v : variant) (job : N) (r : post_response)
    (s : state) : state :=
  fetch (KFinal job) CheckStatus (simulateAIResponse_resume v r s).

(** The timeout callback after the last [await]; nothing encloses the two
    awaits of this segment, so an exception rejects the callback's promise. *)
Definition finalize_resume (job : N) (r : fetched status_data) (s : state) : state :=
  match r with
  | Json statusData =>
      if status_is statusData "completed" then
        setStatus (ByFinalize job) (StCompleted (timestamp statusData))
          (setDownloadDisplay (ByFinalize job) true s)
      else if status_is statusData "failed" then
        setStatus (ByFinalize job) (StFailed (timestamp statusData)) s
      else s
  | Threw => observe (UnhandledRejection (KFinal job)) s
  end.

(** *** sendMessage *)

Definition sendMessage (s : state) : state :=
  let messageText := Str.trim (chatInput s) in
  if Str.isEmpty messageText then s
  else
    let s := set_welcomeDisplay s false in
    let s := snd (createMessageElement (MText messageText) User s) in
    let s := set_chatInput s "" in
    startProcessingFlow (Some messageText) None s.

(** *** newChatBtn click *)

Definition newChat (s : state) : state :=
  let s := set_chatWindow s [welcomeMessage] in
  let s := set_welcomeDisplay s true in
  let s := set_chatInput s "" in
  let s := setDownloadDisplay ByReset false s in
  setStatus ByReset StEmpty s.

(** *** downloadOutputBtn click *)

Definition download_click (s : state) : state :=
  fetch KDownloadStatus CheckStatus s.

Definition download_catch (s : state) : state :=
  alert DlgConnection (observe ConsoleError s).

Definition download_afterStatus (r : fetched status_data) (s : state) : state :=
  match r with
  | Json statusData =>
      if status_is statusData "processing" then alert DlgProcessing s
      else if status_is statusData "failed" then alert DlgFailed s
      else fetch KDownloadProbe GetOutput s
  | Threw => download_catch s
  end.

Definition download_afterProbe (r : fetched bool) (s : state) : state :=
  match r with
  | Json success =>
      if negb success then alert DlgNotCreated s
      else
        let s := setStatus ByDownload StDownloading s in
        let s := observe Navigate s in
        let n := next_id s in
        setTimer (DownloadedTimeout n) 1000 (set_next_id s (N.succ n))
  | Threw => download_catch s
  end.

Definition downloaded_timeout (v : variant) (n : N) (s : state) : state :=
  let s := setStatus ByDownload StDownloaded s in
  match v with
  | ScriptJs => s
  | Part000 => setTimer (ClearStatusTimeout n) 3000 s
  end.

Definition clearStatus_timeout (s : state) : state :=
  setStatus ByDownload StEmpty s.

(** *** handleFileSelection *)

Definition allowedExtensions : list string := [".txt"; ".pdf"; ".docx"].

Definition fileExtension (f : file) : string :=
  Str.toLowerCase (Str.substring (Str.lastIndexOf "."%char (name f)) (name f)).

Definition readAsDataURL (f : file) (s : state) : state :=
  let rd := next_id s in
  set_readers (set_next_id s (N.succ rd)) (readers s ++ [(rd, f)]).

Definition handleFileSelection (v : variant) (selected : option file) (s : state) : state :=
  match selected with
  | None => s
  | Some f =>
      match v with
      | ScriptJs =>
          if 5 * 1024 * 1024 <? size f then alert DlgTooLarge s
          else readAsDataURL f s
      | Part000 =>
          if negb (Str.includes allowedExtensions (fileExtension f))
          then alert DlgBadExtension s
          else if 5 * 1024 * 1024 <? size f then alert DlgTooLarge s
          else readAsDataURL f s
      end
  end.

(** [reader.onload]; [base64Data] is [event.target.result.split(',')[1]]. *)
Definition reader_onload (f : file) (base64Data : option string) (s : state) : state :=
  let s := snd (createMessageElement (MUpload (name f) (size f)) User s) in
  startProcessingFlow None base64Data s.

(** [reader.onerror] is only set in the second revision. *)
Definition reader_onerror (v : variant) (s : state) : state :=
  match v with
  | ScriptJs => s
  | Part000 => alert DlgReadError s
  end.

(** ** The event loop *)

(** What the environment may do next.  Time only moves with [Advance], and
    never past a timer that is due: the scheduler is taken to run a timer's
    callback at its due time (no jitter).  A timer that is due may fire in
    any order with other work of the same instant; an answer may arrive at
    any time after its request. *)
Inductive event :=
| Advance (dt : N)
| Fire (t : timer_id)
| Deliver (rid : N) (r : response)
| Typed (text : string)                              (* the user edits chatInput *)
| ClickSend                                          (* sendBtn click, or Enter *)
| ClickNewChat
| ClickDownload
| FileChosen (selected : option file)                (* fileInput change *)
| ReaderLoaded (rd : N) (base64Data : option string)
| ReaderFailed (rd : N).

Definition advance (dt : N) (s : state) : option state :=
  if forallb (fun e => now s + dt <=? snd e) (timers s)
  then Some (set_now s (now s + dt))
  else None.

Definition fire (v : variant) (t : timer_id) (s : state) : option state :=
  match take timer_id_eqb t (timers s) with
  | None => None
  | Some (due, rest) =>
      if due <=? now s then
        match t with
        | CheckStatusInterval job =>
            checkStatus_tick job (set_timers s (rest ++ [(t, due + 2000)]))
        | FinalizeTimeout job => finalize_timeout job (set_timers s rest)
        | DownloadedTimeout n => Some (downloaded_timeout v n (set_timers s rest))
        | ClearStatusTimeout _ => Some (clearStatus_timeout (set_timers s rest))
        end
      else None
  end.

Definition resume (v : variant) (k : kont) (r : response) (s : state) : option state :=
  match k, r with
  | KPoll job, RStatus x => Some (checkStatus_resume job x s)
  | KSubmit job, RPost x => Some (finalize_afterSubmit v job x s)
  | KFinal job, RStatus x => Some (finalize_resume job x s)
  | KDownloadStatus, RStatus x => Some (download_afterStatus x s)
  | KDownloadProbe, RProbe x => Some (download_afterProbe x s)
  | _, _ => None
  end.

Definition deliver (v : variant) (rid : N) (r : response) (s : state) : option state :=
  match take N.eqb rid (pending s) with
  | None => None
  | Some (k, rest) => resume v k r (observe (Received k r) (set_pending s rest))
  end.

(** One turn of the event loop; [None] when the event cannot happen in [s]. *)
Definition step (v : variant) (s : state) (e : event) : option state :=
  match e with
  | Advance dt => advance dt s
  | Fire t => fire v t s
  | Deliver rid r => deliver v rid r s
  | Typed text => Some (set_chatInput s text)
  | ClickSend => Some (sendMessage s)
  | ClickNewChat => Some (newChat s)
  | ClickDownload => Some (download_click s)
  | FileChosen selected => Some (handleFileSelection v selected s)
  | ReaderLoaded rd base64Data =>
      match take N.eqb rd (readers s) with
      | None => None
      | Some (f, rest) => Some (reader_onload f base64Data (set_readers s rest))
      end
  | ReaderFailed rd =>
      match take N.eqb rd (readers s) with
      | None => None
      | Some (_, rest) => Some (reader_onerror v (set_readers s rest))
      end
  end.

Fixpoint run (v : variant) (s : state) (es : list event) : option state :=
  match es with
  | [] => Some s
  | e :: es' =>
      match step v s e with
      | Some s' => run v s' es'
      | None => None
      end
  end.

(** States the page can be in. *)
Definition reachable (v : variant) (s : state) : Prop :=
  exists es, run v init es = Some s.

(** * Vocabulary of the properties *)

(** ** Counting in lists *)

Definition tally {A : Type} (p : A -> bool) (l : list A) : nat :=
  List.length (filter p l).

(** ** What the log says about one job *)

Section JobView.
Variable job : N.

Definition is_finalize (e : timer_id * N) : bool :=
  timer_id_eqb (fst e) (FinalizeTimeout job).

Definition is_interval (e : timer_id * N) : bool :=
  timer_id_eqb (fst e) (CheckStatusInterval job).

Definition awaits_submit (e : N * kont) : bool :=
  match snd e with KSubmit j => j =? job | _ => false end.

(** The POST to [process_prompt] of this job. *)
Definition is_post (e : N * obs) : bool :=
  match snd e with Fetch _ (KSubmit j) _ => j =? job | _ => false end.

(** The answer to that POST. *)
Definition is_answer (e : N * obs) : bool :=
  match snd e with Received (KSubmit j) _ => j =? job | _ => false end.

(** The [check_status] fetch that follows it. *)
Definition is_reconcile (e : N * obs) : bool :=
  match snd e with Fetch _ (KFinal j) _ => j =? job | _ => false end.

(** A [check_status] fetch of this job's interval. *)
Definition is_poll (e : N * obs) : bool :=
  match snd e with Fetch _ (KPoll j) _ => j =? job | _ => false end.

(** A status line written by this job's interval callback. *)
Definition is_poll_write (e : N * obs) : bool :=
  match snd e with StatusText (ByPoll j) _ => j =? job | _ => false end.

Definition posts (l : list (N * obs)) := filter is_post l.
Definition reconciles (l : list (N * obs)) := filter is_reconcile l.

(** The POST carries the job's payload and leaves five seconds after the
    submission. *)
Definition post_ok (c : closure) (e : N * obs) : Prop :=
  fst e = submittedAt c + 5000 /\
  exists rid, snd e = Fetch rid (KSubmit job)
                        (ProcessPrompt (userPrompt c) (fileDataBase64 c)).
End JobView.

Arguments is_finalize job !e /.
Arguments is_interval job !e /.
Arguments awaits_submit job !e /.
Arguments is_post job !e /.
Arguments is_answer job !e /.
Arguments is_reconcile job !e /.
Arguments is_poll job !e /.
Arguments is_poll_write job !e /.

(** Log entries that are neither a POST, nor its answer, nor a final
    [check_status] fetch. *)
Definition neutral_obs (o : obs) : bool :=
  match o with
  | Fetch _ (KSubmit _) _ | Fetch _ (KFinal _) _ | Received (KSubmit _) _ => false
  | _ => true
  end.

Definition neutral_kont (k : kont) : bool :=
  match k with KSubmit _ => false | _ => true end.

Definition neutral_timer (t : timer_id) : bool :=
  match t with
  | FinalizeTimeout _ | CheckStatusInterval _ => false
  | _ => true
  end.

(** Poll fetches of [job] that left after the job's POST. *)
Fixpoint polls_after_post (job : N) (l : list (N * obs)) : nat :=
  match l with
  | [] => O
  | e :: r =>
      ((if is_poll job e && negb (Nat.eqb (tally (is_post job) r) 0) then 1 else 0)
       + polls_after_post job r)%nat
  end.

(** ** The lifecycle invariant *)

Record job_inv (job : N) (ts : list (timer_id * N)) (ps : list (N * kont))
    (cs : list (N * closure)) (l : list (N * obs)) : Prop := {
  ji_answers :
    (tally (awaits_submit job) ps + tally (is_answer job) l = tally (is_post job) l)%nat;
  ji_reconciles : tally (is_reconcile job) l = tally (is_answer job) l;
  ji_armed :
    (tally (is_finalize job) ts + tally (is_post job) l
     = match lookup job cs with Some _ => 1 | None => 0 end)%nat;
  ji_stopped : tally (is_post job) l <> O -> tally (is_interval job) ts = O;
  ji_quiet : polls_after_post job l = O;
  ji_due : forall c d, lookup job cs = Some c ->
             In (FinalizeTimeout job, d) ts -> d = submittedAt c + 5000;
  ji_posts : forall c e, lookup job cs = Some c ->
               In e l -> is_post job e = true -> post_ok job c e
}.

Record inv_core (n : N) (ts : list (timer_id * N)) (ps : list (N * kont))
    (cs : list (N * closure)) (k : N) (l : list (N * obs)) : Prop := {
  ic_due : forall t d, In (t, d) ts -> n <= d;
  ic_fresh : forall job c, lookup job cs = Some c -> job < k;
  ic_jobs : forall job, job_inv job ts ps cs l
}.

Definition Inv (s : state) : Prop :=
  inv_core (now s) (timers s) (pending s) (closures s) (next_id s) (log s).

Definition quiet_obs (o : obs) : bool :=
  match o with
  | Fetch _ (KPoll _) _ => false
  | _ => neutral_obs o
  end.

(** ** Download visibility and the reconciled status *)

(** The statuses read by the reconciliations that ran since the download
    button was last hidden by a starting submission or by a reset, newest
    first. *)
Fixpoint reconciled_since_hidden (l : list (N * obs)) : list status_data :=
  match l with
  | [] => []
  | (_, o) :: r =>
      match o with
      | DownloadDisplay (ByStart _) _ | DownloadDisplay ByReset _ => []
      | Received (KFinal _) (RStatus (Json d)) => d :: reconciled_since_hidden r
      | _ => reconciled_since_hidden r
      end
  end.

Definition is_completed (d : status_data) : bool := status_is d "completed".

(** Whether one of them reported 'completed'. *)
Definition completed_since_hidden (l : list (N * obs)) : bool :=
  existsb is_completed (reconciled_since_hidden l).

(** The last reconciled status, if there is one. *)
Definition last_reconciled (l : list (N * obs)) : option status_data :=
  hd_error (reconciled_since_hidden l).

Definition Shown (s : state) : Prop :=
  downloadOutputBtn s = completed_since_hidden (log s).

(** ** Scenarios *)

Definition status_answer (st : string) (ts : option string) : response :=
  RStatus (Json {| status := Some st; timestamp := ts |}).

(** "hello" is sent at time 0; the two poll ticks fire, the first one is
    answered, then the five seconds are over. *)
Definition hello_until_finalize : list event :=
  [Typed "hello"; ClickSend;
   Advance 2000; Fire (CheckStatusInterval 2);
   Deliver 5 (status_answer "processing" None);
   Advance 2000; Fire (CheckStatusInterval 2);
   Advance 1000; Fire (FinalizeTimeout 2)].

(** ** The status line at the two call sites *)

(** The mapping as the spec words it: completed and failed show the
    backend's timestamp, processing shows the current time, anything else
    shows the ready text. *)
Definition spec_status_text (clock : N) (d : status_data) : status_text :=
  if status_is d "completed" then StCompleted (timestamp d)
  else if status_is d "failed" then StFailed (timestamp d)
  else if status_is d "processing" then StProcessing clock
  else StReady.

(** The status line after the poll tick has read [d]. *)
Definition poll_site (job : N) (d : status_data) (s : state) : status_text :=
  processingStatusArea (checkStatus_resume job (Json d) s).

(** The status line after the reconciliation has read [d]. *)
Definition finalize_site (job : N) (d : status_data) (s : state) : status_text :=
  processingStatusArea (finalize_resume job (Json d) s).

(** The claim as the spec words it: both call sites show the same text for
    every backend status. *)
Definition status_mapping_identical : Prop :=
  forall job d s, poll_site job d s = finalize_site job d s.

(** ** A failing POST *)

(** The spec's [TransportError] of [submitJob]: the fetch rejects, the
    answer is not 2xx, or its body is not JSON. *)
Definition transport_error (r : post_response) : bool :=
  match r with
  | PostRejected => true
  | PostHttp false _ => true
  | PostHttp true Threw => true
  | PostHttp true (Json _) => false
  end.

(** The claim as the spec words it: once the POST of a job has failed, the
    error message is in the chat and that job never shows the download
    button. *)
Definition submit_failure_blocks_download : Prop :=
  forall v s job r t,
    reachable v s ->
    transport_error r = true ->
    In (t, Received (KSubmit job) (RPost r)) (log s) ->
    (exists id, In (t, ChatAppend {| el_id := id; el_body := Plain Ai MBackendError |}) (log s)) /\
    forall t', ~ In (t', DownloadDisplay (ByFinalize job) true) (log s).

(** "hello" is sent, the POST is answered with a non-2xx status, and the
    reconciliation that follows reads 'completed'. *)
Definition hello_post_fails : list event :=
  [Typed "hello"; ClickSend;
   Advance 2000; Fire (CheckStatusInterval 2);
   Advance 2000; Fire (CheckStatusInterval 2);
   Advance 1000; Fire (FinalizeTimeout 2);
   Deliver 7 (RPost (PostHttp false Threw));
   Deliver 9 (status_answer "completed" None)].

(** ** Where network errors end up *)

Definition is_alert (e : N * obs) : bool :=
  match snd e with Alert _ => true | _ => false end.

Definition is_unhandled (e : N * obs) : bool :=
  match snd e with UnhandledRejection _ => true | _ => false end.

(** What the user can see of a failure: a dialog, the backend-error status
    text, or the backend-error chat message. *)
Definition is_rendered_failure (e : N * obs) : bool :=
  match snd e with
  | Alert _ => true
  | StatusText _ StBackendError => true
  | ChatAppend {| el_body := Plain Ai MBackendError |} => true
  | _ => false
  end.

(** "hello" is sent, the POST succeeds, and the check_status fetch that
    follows it fails. *)
Definition hello_final_status_fails : list event :=
  [Typed "hello"; ClickSend;
   Advance 2000; Fire (CheckStatusInterval 2);
   Advance 2000; Fire (CheckStatusInterval 2);
   Advance 1000; Fire (FinalizeTimeout 2);
   Deliver 7 (RPost (PostHttp true (Json (Some "done"))));
   Deliver 9 (RStatus Threw)].

(** ** File validation *)

Definition exe_1MiB : file := {| name := "a.exe"; size := 1024 * 1024 |}.
Definition txt_6MiB : file := {| name := "notes.txt"; size := 6 * 1024 * 1024 |}.
Definition pdf_1MiB : file := {| name := "Report.PDF"; size := 1024 * 1024 |}.

(** A 1 MiB [a.exe] is chosen, read, and its job runs to the POST. *)
Definition exe_upload : list event :=
  [FileChosen (Some exe_1MiB); ReaderLoaded 1 (Some "TVqQ");
   Advance 2000; Fire (CheckStatusInterval 3);
   Advance 2000; Fire (CheckStatusInterval 3);
   Advance 1000; Fire (FinalizeTimeout 3)].

(** *** The extension check of the second revision is a suffix match *)

Fixpoint has_dot (s : string) : bool :=
  match s with
  | EmptyString => false
  | String c r => Ascii.eqb c "."%char || has_dot r
  end.

(** ** A poll answer that arrives after finalization *)

(** Status lines written by the poll callback of [job] after the job's
    POST has left, that is, after its finalize callback has started. *)
Fixpoint poll_writes_after_post (job : N) (l : list (N * obs)) : nat :=
  match l with
  | [] => O
  | e :: r =>
      ((if is_poll_write job e && negb (Nat.eqb (tally (is_post job) r) 0) then 1 else 0)
       + poll_writes_after_post job r)%nat
  end.

(** "hello" is sent; the poll tick at 4 s is still waiting for its answer
    when the finalize callback runs at 5 s; the POST and the reconciliation
    complete by 5.2 s; the answer to the old poll arrives at 5.5 s. *)
Definition hello_stale_poll : list event :=
  hello_until_finalize ++
  [Advance 100; Deliver 7 (RPost (PostHttp true (Json (Some "done"))));
   Advance 100; Deliver 9 (status_answer "completed" (Some "2025-01-01T00:00:05Z"));
   Advance 300; Deliver 6 (status_answer "processing" None)].

(** ** Reset *)

(** Events that are not caused by the user: the clock, timers, answers. *)
Definition passive (e : event) : bool :=
  match e with
  | Advance _ | Fire _ | Deliver _ _ => true
  | _ => false
  end.

Definition is_mutation (e : N * obs) : bool :=
  match snd e with
  | StatusText _ _ | ChatAppend _ => true
  | _ => false
  end.

(** The claim as the spec words it: the timers and in-flight answers of
    the superseded job are gone, so that letting time pass after a reset
    writes no status line and appends no chat message. *)
Definition reset_silences : Prop :=
  forall v s, reachable v s ->
    forall es s', forallb passive es = true ->
      run v (newChat s) es = Some s' ->
      tally is_mutation (log s') = tally is_mutation (log (newChat s)).

(** "hello" is sent and one second passes; this is where the reset comes. *)
Definition hello_then_reset : list event :=
  [Typed "hello"; ClickSend; Advance 1000].

(** What follows the reset: the job's two poll ticks, the first one
    answered, its finalize callback, the POST and the reconciliation. *)
Definition after_reset : list event :=
  [Advance 1000; Fire (CheckStatusInterval 2);
   Deliver 5 (status_answer "processing" None);
   Advance 2000; Fire (CheckStatusInterval 2);
   Advance 1000; Fire (FinalizeTimeout 2);
   Deliver 7 (RPost (PostHttp true (Json (Some "done"))));
   Deliver 9 (status_answer "completed" None)].

(** ** The download button and the reconciled status *)

(** The claim as the spec words it. *)
Definition download_iff_last_completed : Prop :=
  forall v s, reachable v s ->
    (downloadOutputBtn s = true <->
     exists d, last_reconciled (log s) = Some d /\ is_completed d = true).

(** "a" is sent, the chat is reset, "b" is sent.  The reconciliation of the
    first job reads 'completed'; a second later the reconciliation of the
    second job reads 'failed'. *)
Definition two_jobs : list event :=
  [Typed "a"; ClickSend; Advance 500; ClickNewChat; Advance 500;
   Typed "b"; ClickSend;
   Advance 1000; Fire (CheckStatusInterval 2);
   Advance 1000; Fire (CheckStatusInterval 6);
   Advance 1000; Fire (CheckStatusInterval 2);
   Advance 1000; Fire (CheckStatusInterval 6);
   Fire (FinalizeTimeout 2);
   Deliver 13 (RPost (PostHttp true (Json (Some "A"))));
   Deliver 15 (status_answer "completed" None);
   Advance 1000; Fire (FinalizeTimeout 6);
   Deliver 16 (RPost (PostHttp true (Json (Some "B"))));
   Deliver 18 (status_answer "failed" None)].

(** * The rest of the script *)

(** ** Theme *)

Module Theme.

Definition LOGO_DARK : string := "pict/logo_dark.png".
Definition LOGO_LIGHT : string := "pict/logo_light.png".

(** What [applyTheme] and its callers read and write: whether [body] has
    the class 'dark-theme', the text of the toggle button, the item 'theme'
    of [localStorage] ([None] when it was never set) and the [src] of the
    logo ([None] when the page has no #theme-logo). *)
Record page := {
  darkClass : bool;
  buttonText : string;
  stored : option string;
  logoSrc : option string
}.

Definition applyTheme (isDark : bool) (p : page) : page :=
  if isDark then
    {| darkClass := true; buttonText := "☀️"; stored := Some "dark-theme";
       logoSrc := match logoSrc p with Some _ => Some LOGO_DARK | None => None end |}
  else
    {| darkClass := false; buttonText := "🌙"; stored := Some "light-theme";
       logoSrc := match logoSrc p with Some _ => Some LOGO_LIGHT | None => None end |}.

(** [savedTheme ? savedTheme === 'dark-theme' : true]: [null] and the empty
    string are falsy. *)
Definition isDarkTheme (savedTheme : option string) : bool :=
  match savedTheme with
  | None => true
  | Some x => if Str.isEmpty x then true else String.eqb x "dark-theme"
  end.

(** The statements run at [DOMContentLoaded]. *)
Definition onLoad (p : page) : page := applyTheme (isDarkTheme (stored p)) p.

(** The click handler of the toggle button. *)
Definition toggle (p : page) : page := applyTheme (negb (darkClass p)) p.

Fixpoint clicks (n : nat) (p : page) : page :=
  match n with
  | O => p
  | S m => toggle (clicks m p)
  end.

(** A reload: the document is new ([fresh] is what the HTML gives), the
    storage is what the last session left. *)
Definition reload (fresh last : page) : page :=
  onLoad {| darkClass := darkClass fresh; buttonText := buttonText fresh;
            stored := stored last; logoSrc := logoSrc fresh |}.

(** Class, button, storage and logo say the same. *)
Definition consistent (p : page) : Prop :=
  stored p = Some (if darkClass p then "dark-theme" else "light-theme") /\
  buttonText p = (if darkClass p then "☀️" else "🌙") /\
  (forall src, logoSrc p = Some src ->
               src = if darkClass p then LOGO_DARK else LOGO_LIGHT).

End Theme.

(** ** Line breaks of parseMarkdownToHTML *)

Definition is_newline (c : ascii) : bool := Ascii.eqb c "010"%char.

(** [html.replace(/\n\n/g, '<br><br>')]: matches are taken from left to
    right and do not overlap. *)
Fixpoint replaceNewlinePairs (html : string) : string :=
  match html with
  | EmptyString => EmptyString
  | String c r =>
      match r with
      | String c' r' =>
          if is_newline c && is_newline c'
          then ("<br><br>" ++ replaceNewlinePairs r')%string
          else String c (replaceNewlinePairs r)
      | EmptyString => String c EmptyString
      end
  end.

(** [html.replace(/\n/g, '<br>')]. *)
Fixpoint replaceNewlines (html : string) : string :=
  match html with
  | EmptyString => EmptyString
  | String c r =>
      if is_newline c then ("<br>" ++ replaceNewlines r)%string
      else String c (replaceNewlines r)
  end.

(** The last two statements of [parseMarkdownToHTML], applied to whatever
    the replacements before them produced. *)
Definition lineBreaks (html : string) : string :=
  replaceNewlines (replaceNewlinePairs html).

Fixpoint has_newline (s : string) : bool :=
  match s with
  | EmptyString => false
  | String c r => is_newline c || has_newline r
  end.

(** ** More vocabulary *)

(** The times at which the poll fetches of [job] left, newest first. *)
Definition poll_times (job : N) (l : list (N * obs)) : list N :=
  map fst (filter (is_poll job) l).

Definition is_placeholder (e : element) : bool :=
  match el_body e with Plain Ai MPlaceholder => true | _ => false end.

Definition is_typing (e : element) : bool :=
  match el_body e with TypingDots => true | _ => false end.

(** [e] is the element that [sel] names in the closure of a job whose
    finalize callback has not run. *)
Definition waiting (sel : closure -> N) (cs : list (N * closure)) (e : element) : Prop :=
  exists job c, lookup job cs = Some c /\ processingDone c = false /\ sel c = el_id e.

(** Whether [sendMessage] has appended a prompt since the page was loaded
    or last reset. *)
Fixpoint prompt_sent_since_reset (l : list (N * obs)) : bool :=
  match l with
  | [] => false
  | (_, o) :: r =>
      match o with
      | DownloadDisplay ByReset _ => false
      | ChatAppend {| el_body := Plain User (MText _) |} => true
      | _ => prompt_sent_since_reset r
      end
  end.






(** [p] neither starts nor ends with a white-space character: no
    white-space character can be stripped from its start, and none of its
    non-empty suffixes is blank. *)
Definition no_space_at_ends (p : string) : Prop :=
  Str.strip p = None /\
  forall q r, p = (q ++ r)%string -> r <> EmptyString -> Str.all_space r = false.

(** A job carries a prompt or file data, never both; a prompt is what
    [trim] returns, with no white space at either end, and is not empty. *)
Definition payload_ok (prompt file_data : option string) : Prop :=
  match prompt with
  | Some p =>
      file_data = None /\ Str.trim p = p /\ no_space_at_ends p /\ p <> EmptyString
  | None => True
  end.

(** What [handleFileSelection] accepts in each revision. *)
Definition valid_file (v : variant) (f : file) : bool :=
  match v with
  | ScriptJs => true
  | Part000 =>
      existsb (fun e => Str.endsWith e (Str.toLowerCase (name f))) allowedExtensions
  end
  && (size f <=? 5 * 1024 * 1024).

(** ** Invariants of the event loop *)

(** Log entries that are neither a poll fetch nor a POST. *)
Definition calm_obs (o : obs) : bool :=
  match o with
  | Fetch _ (KPoll _) _ | Fetch _ (KSubmit _) _ => false
  | _ => true
  end.

(** The polls a job has made so far: none, the one at two seconds, or both;
    once the POST has left, both. *)
Definition poll_schedule (submitted : N) (times : list N) (posted : nat) : Prop :=
  (times = [] /\ posted = O) \/
  (times = [submitted + 2000] /\ posted = O) \/
  times = [submitted + 4000; submitted + 2000].

Record job_pace (job : N) (ts : list (timer_id * N)) (cs : list (N * closure))
    (l : list (N * obs)) : Prop := {
  jp_unknown : lookup job cs = None ->
    tally (is_interval job) ts = O /\ poll_times job l = [];
  jp_flag : forall c, lookup job cs = Some c ->
    processingDone c = negb (Nat.eqb (tally (is_post job) l) 0);
  jp_armed : forall c, lookup job cs = Some c ->
    tally (is_interval job) ts = if Nat.eqb (tally (is_post job) l) 0 then 1%nat else O;
  jp_next : forall c d, lookup job cs = Some c ->
    In (CheckStatusInterval job, d) ts ->
    d = submittedAt c + 2000 * (1 + N.of_nat (List.length (poll_times job l)));
  jp_times : forall c, lookup job cs = Some c ->
    poll_schedule (submittedAt c) (poll_times job l) (tally (is_post job) l)
}.

Definition pace_core (ts : list (timer_id * N)) (cs : list (N * closure))
    (l : list (N * obs)) : Prop :=
  forall job, job_pace job ts cs l.

Definition Pace (s : state) : Prop := pace_core (timers s) (closures s) (log s).


(** Element 0 is the welcome message and stays the first child. *)
Definition Welcomed (s : state) : Prop :=
  0 < next_id s /\
  (forall job c, lookup job (closures s) = Some c ->
                 0 < initialResponseElement c /\ 0 < typingIndicator c) /\
  (exists rest, chatWindow s = welcomeMessage :: rest) /\
  welcomeDisplay s = negb (prompt_sent_since_reset (log s)).

Definition Waiting (cs : list (N * closure)) (cw : list element) : Prop :=
  forall e, In e cw ->
    (is_placeholder e = true -> waiting initialResponseElement cs e) /\
    (is_typing e = true -> waiting typingIndicator cs e).

(** Every placeholder and every typing indicator in the chat belongs to a
    job whose finalize callback has not run. *)
Definition Awaited (s : state) : Prop := Waiting (closures s) (chatWindow s).

(** The payload of every job and of every POST that has left. *)
Definition Payloads (s : state) : Prop :=
  (forall job c, lookup job (closures s) = Some c ->
                 payload_ok (userPrompt c) (fileDataBase64 c)) /\
  (forall t rid job p fd,
     In (t, Fetch rid (KSubmit job) (ProcessPrompt p fd)) (log s) -> payload_ok p fd).

(** Every file that is being read, and every file announced in the chat,
    passed [handleFileSelection]'s checks. *)
Definition Uploads (v : variant) (s : state) : Prop :=
  (forall rd f, In (rd, f) (readers s) -> valid_file v f = true) /\
  (forall t id n sz,
     In (t, ChatAppend {| el_id := id; el_body := Plain User (MUpload n sz) |}) (log s) ->
     valid_file v {| name := n; size := sz |} = true).

(** The dialog that answers a file that is not accepted. *)
Definition rejection (v : variant) (f : file) : dialog :=
  match v with
  | ScriptJs => DlgTooLarge
  | Part000 =>
      if existsb (fun e => Str.endsWith e (Str.toLowerCase (name f))) allowedExtensions
      then DlgTooLarge else DlgBadExtension
  end.

(** ** Two submissions *)

Definition report_pdf : file := {| name := "Report.PDF"; size := 5 * 1024 * 1024 |}.

(** A PDF of exactly 5 MiB is chosen and read at time 0; one second later
    a prompt is sent. *)
Definition pdf_upload : list event :=
  [FileChosen (Some report_pdf); ReaderLoaded 1 (Some "JVBERi0=")].

Definition two_submissions : list event :=
  pdf_upload ++ [Advance 1000; Typed "  hello "; ClickSend].

(** Both jobs run to their POST; the first is answered, the second is
    rejected. *)
Definition two_submissions_answered : list event :=
  two_submissions ++
  [Advance 1000; Fire (CheckStatusInterval 3);
   Advance 1000; Fire (CheckStatusInterval 7);
   Advance 1000; Fire (CheckStatusInterval 3);
   Advance 1000; Fire (CheckStatusInterval 7); Fire (FinalizeTimeout 3);
   Deliver 14 (RPost (PostHttp true (Json (Some "done"))));
   Advance 1000; Fire (FinalizeTimeout 7);
   Deliver 17 (RPost PostRejected)].

(** ** Prompts with white space *)

(** SPACE, TAB, LF, NO-BREAK SPACE, IDEOGRAPHIC SPACE and ZERO WIDTH
    NO-BREAK SPACE. *)
Definition blank_input : string := Str.utf8 [0x20; 0x09; 0x0A; 0xA0; 0x3000; 0xFEFF].

(** "hello" between U+FEFF U+3000 and U+00A0 LF. *)
Definition padded_hello : string :=
  (Str.utf8 [0xFEFF; 0x3000] ++ "hello" ++ Str.utf8 [0xA0; 0x0A])%string.

(** The padded prompt is sent at time 0 and its job runs to the POST. *)
Definition padded_prompt_posted : list event :=
  [Typed padded_hello; ClickSend;
   Advance 2000; Fire (CheckStatusInterval 2);
   Advance 2000; Fire (CheckStatusInterval 2);
   Advance 1000; Fire (FinalizeTimeout 2)].

(** * Proofs *)

(** ** Counting in lists *)

Lemma tally_app {A : Type} (p : A -> bool) (l1 l2 : list A) :
  tally p (l1 ++ l2) = (tally p l1 + tally p l2)%nat.
Proof. unfold tally. now rewrite filter_app, length_app. Qed.

Lemma tally_cons {A : Type} (p : A -> bool) (x : A) (l : list A) :
  tally p (x :: l) = ((if p x then 1 else 0) + tally p l)%nat.
Proof. unfold tally. simpl. now destruct (p x). Qed.

Lemma tally_nil {A : Type} (p : A -> bool) : tally p [] = O.
Proof. reflexivity. Qed.

Lemma tally_filter_same {A : Type} (p q : A -> bool) (l : list A) :
  (forall x, In x l -> p x = true -> q x = true) ->
  tally p (filter q l) = tally p l.
Proof.
  induction l as [|x l IH]; intros H; [reflexivity|].
  simpl. destruct (q x) eqn:Q.
  - rewrite !tally_cons, IH; [reflexivity|]. intros; apply H; simpl; auto.
  - rewrite tally_cons, IH.
    + destruct (p x) eqn:P; [|reflexivity].
      rewrite (H x) in Q; [discriminate|simpl; auto|exact P].
    + intros; apply H; simpl; auto.
Qed.

Lemma tally_filter_le {A : Type} (p q : A -> bool) (l : list A) :
  (tally p (filter q l) <= tally p l)%nat.
Proof.
  induction l as [|x l IH]; [constructor|].
  simpl. destruct (q x); rewrite !tally_cons; destruct (p x); simpl; lia.
Qed.

Lemma tally_filter_none {A : Type} (p q : A -> bool) (l : list A) :
  (forall x, p x = true -> q x = false) -> tally p (filter q l) = O.
Proof.
  intros H. induction l as [|x l IH]; [reflexivity|].
  simpl. destruct (q x) eqn:Q; [|exact IH].
  rewrite tally_cons, IH. destruct (p x) eqn:P; [|reflexivity].
  rewrite (H x P) in Q. discriminate.
Qed.

Lemma tally_zero_In {A : Type} (p : A -> bool) (l : list A) (e : A) :
  tally p l = O -> In e l -> p e = false.
Proof.
  induction l as [|x l IH]; intros T I; [destruct I|].
  rewrite tally_cons in T. destruct I as [<-|I].
  - destruct (p x); [discriminate|reflexivity].
  - apply IH; [|exact I]. destruct (p x); simpl in T; lia.
Qed.

Lemma take_split {K V : Type} (eqb : K -> K -> bool) (k : K) (l : list (K * V)) v rest :
  take eqb k l = Some (v, rest) ->
  exists l1 k' l2, l = l1 ++ (k', v) :: l2 /\ rest = l1 ++ l2 /\ eqb k' k = true.
Proof.
  revert v rest. induction l as [|[k0 v0] l IH]; intros v rest H; [discriminate|].
  simpl in H. destruct (eqb k0 k) eqn:E.
  - inversion H; subst. now exists [], k0, rest.
  - destruct (take eqb k l) as [[v' r']|] eqn:T; [|discriminate].
    inversion H; subst.
    destruct (IH _ _ eq_refl) as (l1 & k' & l2 & -> & -> & E').
    now exists ((k0, v0) :: l1), k', l2.
Qed.

Lemma timer_id_eqb_eq (a b : timer_id) : timer_id_eqb a b = true <-> a = b.
Proof.
  destruct a, b; simpl; try (split; [discriminate|congruence]);
    rewrite N.eqb_eq; split; congruence.
Qed.

Lemma timer_id_eqb_refl (a : timer_id) : timer_id_eqb a a = true.
Proof. now apply timer_id_eqb_eq. Qed.

Lemma lookup_update {V : Type} (k k' : N) (f : V -> V) (l : list (N * V)) :
  lookup k (update k' f l) =
  if k =? k' then option_map f (lookup k l) else lookup k l.
Proof.
  induction l as [|[k0 v0] l IH]; simpl.
  - now destruct (k =? k').
  - destruct (k0 =? k') eqn:E0; simpl.
    + apply N.eqb_eq in E0; subst k0.
      rewrite (N.eqb_sym k' k). now destruct (k =? k').
    + rewrite IH. destruct (k0 =? k) eqn:E1; [|reflexivity].
      apply N.eqb_eq in E1; subst k0. now rewrite E0.
Qed.

(** ** Primitive steps keep the lifecycle invariant *)

Lemma neutral_obs_views job t o :
  neutral_obs o = true ->
  is_post job (t, o) = false /\ is_answer job (t, o) = false /\
  is_reconcile job (t, o) = false.
Proof.
  unfold is_post, is_answer, is_reconcile; simpl.
  destruct o as [rid k req|k r| | | | | | |]; try (intros _; now repeat split);
    destruct k; simpl; intros H; try discriminate; now repeat split.
Qed.

Lemma neutral_timer_finalize job t d :
  neutral_timer t = true -> is_finalize job (t, d) = false.
Proof. unfold is_finalize; destruct t; simpl; intros; congruence. Qed.

Lemma neutral_kont_awaits job rid k :
  neutral_kont k = true -> awaits_submit job (rid, k) = false.
Proof. unfold awaits_submit; destruct k; simpl; intros; congruence. Qed.

Ltac tal0 := rewrite ?tally_app, ?tally_cons, ?tally_nil in *.
Ltac tal := repeat (rewrite ?tally_app, ?tally_cons, ?tally_nil in *; simpl in * ).

Section InvLemmas.
Variables (n : N) (ts : list (timer_id * N)) (ps : list (N * kont))
          (cs : list (N * closure)) (k : N) (l : list (N * obs)).
Hypothesis H : inv_core n ts ps cs k l.

Lemma inv_obs t o : quiet_obs o = true -> inv_core n ts ps cs k ((t, o) :: l).
Proof.
  intros Q. destruct H as [Hd Hf Hj]. split; auto.
  intros job. destruct (Hj job) as [JA JR JF JS JQ JD JP].
  assert (Nt : neutral_obs o = true)
    by (destruct o as [? [] ?| | | | | | | |]; auto; discriminate).
  destruct (neutral_obs_views job t o Nt) as (E1 & E2 & E3).
  assert (E4 : is_poll job (t, o) = false)
    by (unfold is_poll; destruct o as [? [] ?| | | | | | | |]; auto; discriminate).
  split; rewrite ?tally_cons, ?E1, ?E2, ?E3; cbn [Nat.add]; auto.
  - cbn [polls_after_post]. rewrite E4. exact JQ.
  - intros c e L [<-|I]; [congruence|eauto].
Qed.

Lemma inv_next k' : k <= k' -> inv_core n ts ps cs k' l.
Proof.
  intros Hk. destruct H as [Hd Hf Hj]. split; auto.
  intros job c L. specialize (Hf _ _ L). lia.
Qed.

Lemma inv_pending_add rid x :
  neutral_kont x = true -> inv_core n ts (ps ++ [(rid, x)]) cs k l.
Proof.
  intros Q. destruct H as [Hd Hf Hj]. split; auto.
  intros job. destruct (Hj job) as [JA JR JF JS JQ JD JP].
  split; auto.
  rewrite tally_app, tally_cons, tally_nil, (neutral_kont_awaits job rid x Q).
  simpl. lia.
Qed.

Lemma inv_pending_take rid x rest :
  take N.eqb rid ps = Some (x, rest) -> neutral_kont x = true ->
  inv_core n ts rest cs k l.
Proof.
  intros T Q. destruct (take_split _ _ _ _ _ T) as (l1 & k' & l2 & E & -> & _).
  destruct H as [Hd Hf Hj]. split; auto.
  intros job. destruct (Hj job) as [JA JR JF JS JQ JD JP].
  split; auto. rewrite E in JA. tal0.
  rewrite (neutral_kont_awaits job k' x Q) in JA. simpl in JA. lia.
Qed.

Lemma inv_timer_add t d :
  neutral_timer t = true -> n <= d -> inv_core n (ts ++ [(t, d)]) ps cs k l.
Proof.
  intros Q Hn. destruct H as [Hd Hf Hj]. split; auto.
  - intros t' d' I. apply in_app_iff in I as [I|[I|[]]]; [eauto|].
    inversion I; subst; lia.
  - intros job. destruct (Hj job) as [JA JR JF JS JQ JD JP].
    split; auto.
    + rewrite tally_app, tally_cons, tally_nil, (neutral_timer_finalize job t d Q).
      simpl. lia.
    + intros Hp. specialize (JS Hp). rewrite tally_app, tally_cons, tally_nil, JS.
      unfold is_interval. destruct t; simpl; try reflexivity; discriminate Q.
    + intros c d' L I. apply in_app_iff in I as [I|[I|[]]]; [eauto|].
      inversion I; subst; discriminate Q.
Qed.

Lemma inv_timer_take t d rest :
  take timer_id_eqb t ts = Some (d, rest) -> neutral_timer t = true ->
  inv_core n rest ps cs k l.
Proof.
  intros T Q. destruct (take_split _ _ _ _ _ T) as (l1 & t' & l2 & E & -> & Et).
  apply timer_id_eqb_eq in Et; subst t'.
  destruct H as [Hd Hf Hj]. split; auto.
  - intros t' d' I. apply (Hd t' d'). rewrite E.
    apply in_app_iff in I as [I|I]; apply in_app_iff; simpl; auto.
  - intros job. destruct (Hj job) as [JA JR JF JS JQ JD JP].
    split; auto.
    + rewrite E in JF. tal0. rewrite (neutral_timer_finalize job t d Q) in JF.
      simpl in JF. lia.
    + intros Hp. specialize (JS Hp). rewrite E in JS. tal. lia.
    + intros c d' L I. apply (JD c d' L). rewrite E.
      apply in_app_iff in I as [I|I]; apply in_app_iff; simpl; auto.
Qed.
End InvLemmas.

Section InvLifecycle.
Variables (n : N) (ts : list (timer_id * N)) (ps : list (N * kont))
          (cs : list (N * closure)) (k : N) (l : list (N * obs)).
Hypothesis H : inv_core n ts ps cs k l.

Lemma inv_clear_interval j :
  inv_core n (filter (fun e => negb (timer_id_eqb (fst e) (CheckStatusInterval j))) ts)
    ps cs k l.
Proof.
  destruct H as [Hd Hf Hj]. split; auto.
  - intros t d I. apply filter_In in I as [I _]. eauto.
  - intros job. destruct (Hj job) as [JA JR JF JS JQ JD JP].
    split; auto.
    + rewrite tally_filter_same; [exact JF|].
      intros [t d] _ E. unfold is_finalize in E. simpl in *.
      apply timer_id_eqb_eq in E; subst t. reflexivity.
    + intros Hp. specialize (JS Hp).
      pose proof (tally_filter_le (is_interval job)
        (fun e => negb (timer_id_eqb (fst e) (CheckStatusInterval j))) ts). lia.
    + intros c d L I. apply filter_In in I as [I _]. eauto.
Qed.

Lemma inv_rearm j due rest :
  take timer_id_eqb (CheckStatusInterval j) ts = Some (due, rest) ->
  inv_core n (rest ++ [(CheckStatusInterval j, due + 2000)]) ps cs k l.
Proof.
  intros T. destruct (take_split _ _ _ _ _ T) as (l1 & t' & l2 & E & -> & Et).
  apply timer_id_eqb_eq in Et; subst t'.
  destruct H as [Hd Hf Hj]. split; auto.
  - intros t d I. rewrite E in Hd.
    rewrite !in_app_iff in I. destruct I as [[I|I]|[I|[]]].
    + apply (Hd t d). rewrite in_app_iff; auto.
    + apply (Hd t d). rewrite in_app_iff; simpl; auto.
    + inversion I; subst.
      assert (n <= due) by (apply (Hd (CheckStatusInterval j)); rewrite in_app_iff; simpl; auto).
      lia.
  - intros job. destruct (Hj job) as [JA JR JF JS JQ JD JP].
    split; auto.
    + rewrite E in JF. tal. unfold is_finalize in *. simpl in *.
      destruct (lookup job cs); lia.
    + intros Hp. specialize (JS Hp). rewrite E in JS. tal.
      unfold is_interval in *. simpl in *. destruct (j =? job); lia.
    + intros c d L I. apply (JD c d L). rewrite E.
      rewrite !in_app_iff in I. rewrite in_app_iff. simpl.
      destruct I as [[I|I]|[I|[]]]; auto. discriminate I.
Qed.

Lemma inv_poll j rid req t :
  tally (is_interval j) ts <> O ->
  inv_core n ts (ps ++ [(rid, KPoll j)]) cs k ((t, Fetch rid (KPoll j) req) :: l).
Proof.
  intros Hi. destruct H as [Hd Hf Hj]. split; auto.
  intros job. destruct (Hj job) as [JA JR JF JS JQ JD JP].
  split; auto; tal; auto.
  - lia.
  - rewrite JQ. unfold is_poll. simpl.
    destruct (j =? job) eqn:Ej; [|reflexivity].
    apply N.eqb_eq in Ej; subst j.
    destruct (tally (is_post job) l) eqn:Tp; [reflexivity|].
    exfalso. apply Hi, JS. discriminate.
  - intros c e L [<-|I]; [discriminate|eauto].
Qed.

Lemma inv_advance dt :
  forallb (fun e => n + dt <=? snd e) ts = true ->
  inv_core (n + dt) ts ps cs k l.
Proof.
  intros F. destruct H as [Hd Hf Hj]. split; auto.
  intros t d I. rewrite forallb_forall in F. specialize (F _ I). simpl in F.
  now apply N.leb_le in F.
Qed.

Lemma inv_start job c k' :
  k <= job -> job < k' -> submittedAt c = n ->
  inv_core n
    ((ts ++ [(CheckStatusInterval job, n + 2000)]) ++ [(FinalizeTimeout job, n + 5000)])
    ps ((job, c) :: cs) k' l.
Proof.
  intros Hk Hk' Hc. destruct H as [Hd Hf Hj].
  assert (Lnone : lookup job cs = None).
  { destruct (lookup job cs) eqn:L; [|reflexivity]. specialize (Hf _ _ L). lia. }
  split.
  - intros t d I. rewrite !in_app_iff in I.
    destruct I as [[I|[I|[]]]|[I|[]]]; [eauto| |]; inversion I; subst; lia.
  - intros j c0. simpl. destruct (job =? j) eqn:E.
    + apply N.eqb_eq in E; subst j. intros _. exact Hk'.
    + intros L. specialize (Hf _ _ L). lia.
  - intros j. destruct (Hj j) as [JA JR JF JS JQ JD JP].
    split; auto.
    + tal. unfold is_finalize in *. simpl in *. rewrite (N.eqb_sym job j).
      destruct (j =? job) eqn:E.
      * apply N.eqb_eq in E; subst j. rewrite Lnone in JF. lia.
      * lia.
    + intros Hp. specialize (JS Hp). tal. unfold is_interval in *. simpl in *.
      destruct (job =? j) eqn:E; [|lia].
      apply N.eqb_eq in E; subst j. rewrite Lnone in JF. lia.
    + intros c0 d. simpl. rewrite !in_app_iff. simpl.
      destruct (job =? j) eqn:E.
      * apply N.eqb_eq in E; subst j. intros L. inversion L; subst c0.
        intros [[I|[I|[]]]|[I|[]]].
        -- rewrite Lnone in JF.
           assert (Z : tally (is_finalize job) ts = O) by lia.
           pose proof (tally_zero_In _ _ _ Z I) as Bad.
           unfold is_finalize in Bad. simpl in Bad.
           rewrite N.eqb_refl in Bad. discriminate.
        -- discriminate I.
        -- inversion I; subst. reflexivity.
      * intros L [[I|[I|[]]]|[I|[]]]; [eauto|discriminate I|].
        inversion I; subst. rewrite N.eqb_refl in E. discriminate.
    + intros c0 e. simpl. destruct (job =? j) eqn:E; [|eauto].
      apply N.eqb_eq in E; subst j. intros _ I P.
      rewrite Lnone in JF. assert (Z : tally (is_post job) l = O) by lia.
      rewrite (tally_zero_In _ _ _ Z I) in P. discriminate.
Qed.
End InvLifecycle.

Lemma quiet_views job (e : N * obs) :
  quiet_obs (snd e) = true ->
  is_post job e = false /\ is_answer job e = false /\
  is_reconcile job e = false /\ is_poll job e = false.
Proof.
  destruct e as [t o]. unfold is_post, is_answer, is_reconcile, is_poll. simpl.
  destruct o as [? [] ?|[] ?| | | | | | |]; simpl; intros Q;
    try discriminate Q; now repeat split.
Qed.

Lemma quiet_segment job (mid l : list (N * obs)) :
  forallb (fun e => quiet_obs (snd e)) mid = true ->
  tally (is_post job) (mid ++ l) = tally (is_post job) l /\
  tally (is_answer job) (mid ++ l) = tally (is_answer job) l /\
  tally (is_reconcile job) (mid ++ l) = tally (is_reconcile job) l /\
  polls_after_post job (mid ++ l) = polls_after_post job l /\
  (forall e, In e mid -> is_post job e = false).
Proof.
  induction mid as [|x mid IH]; simpl; intros Q.
  - repeat split; auto. intros e [].
  - apply andb_true_iff in Q as [Qx Q].
    destruct (IH Q) as (A & B & C & D & E).
    destruct (quiet_views job x Qx) as (X1 & X2 & X3 & X4).
    rewrite !tally_cons, X1, X2, X3, X4, A, B, C, D. simpl.
    repeat split; auto. intros e [<-|I]; auto.
Qed.

Section InvFinalize.
Variables (n : N) (ts : list (timer_id * N)) (ps : list (N * kont))
          (cs : list (N * closure)) (k : N) (l : list (N * obs)).
Hypothesis H : inv_core n ts ps cs k l.

Lemma inv_finalize job c due rest rid f :
  take timer_id_eqb (FinalizeTimeout job) ts = Some (due, rest) ->
  due <= n ->
  lookup job cs = Some c ->
  (forall x, submittedAt (f x) = submittedAt x /\
             userPrompt (f x) = userPrompt x /\
             fileDataBase64 (f x) = fileDataBase64 x) ->
  inv_core n
    (filter (fun e => negb (timer_id_eqb (fst e) (CheckStatusInterval job))) rest)
    (ps ++ [(rid, KSubmit job)]) (update job f cs) k
    ((n, Fetch rid (KSubmit job) (ProcessPrompt (userPrompt c) (fileDataBase64 c))) :: l).
Proof.
  intros T Hdue L Hfld.
  destruct (take_split _ _ _ _ _ T) as (l1 & t' & l2 & E & -> & Et).
  apply timer_id_eqb_eq in Et; subst t'.
  destruct H as [Hd Hf Hj].
  assert (Iin : In (FinalizeTimeout job, due) ts)
    by (rewrite E, in_app_iff; simpl; auto).
  assert (Hn : n = submittedAt c + 5000).
  { pose proof (Hd _ _ Iin). pose proof (ji_due _ _ _ _ _ (Hj job) c due L Iin). lia. }
  assert (Sub : forall x, In x (l1 ++ l2) -> In x ts).
  { intros x I. rewrite E. rewrite in_app_iff in *. simpl. tauto. }
  split.
  - intros t d I. apply filter_In in I as [I _]. eauto.
  - intros j c0. rewrite lookup_update. destruct (j =? job).
    + destruct (lookup j cs) eqn:Lj; [|discriminate]. intros _. eauto.
    + eauto.
  - intros j. destruct (Hj j) as [JA JR JF JS JQ JD JP].
    assert (Lk : match lookup j (update job f cs) with Some _ => 1%nat | None => O end
                 = match lookup j cs with Some _ => 1%nat | None => O end).
    { rewrite lookup_update. destruct (j =? job), (lookup j cs); reflexivity. }
    assert (Cl : forall c0, lookup j (update job f cs) = Some c0 ->
                 exists c1, lookup j cs = Some c1 /\
                   submittedAt c0 = submittedAt c1 /\
                   userPrompt c0 = userPrompt c1 /\
                   fileDataBase64 c0 = fileDataBase64 c1).
    { intros c0. rewrite lookup_update. destruct (j =? job).
      - destruct (lookup j cs) as [c1|]; [|discriminate]. simpl.
        intros X; inversion X; subst. exists c1. destruct (Hfld c1) as (?&?&?). auto.
      - intros X. exists c0. auto. }
    split.
    + tal. destruct (job =? j); lia.
    + tal. exact JR.
    + rewrite Lk, <- JF, E, tally_filter_same.
      * tal. destruct (job =? j); lia.
      * intros [t d] _ Ef. unfold is_finalize in Ef. simpl in *.
        apply timer_id_eqb_eq in Ef; subst t. reflexivity.
    + intros Hp. destruct (job =? j) eqn:Ej.
      * apply N.eqb_eq in Ej; subst j. apply tally_filter_none.
        intros [t d] Ei. unfold is_interval in Ei. simpl in *. now rewrite Ei.
      * assert (Hp' : tally (is_post j) l <> O).
        { rewrite tally_cons in Hp. simpl in Hp. rewrite Ej in Hp. exact Hp. }
        specialize (JS Hp'). rewrite E in JS. tal.
        pose proof (tally_filter_le (is_interval j)
          (fun e => negb (timer_id_eqb (fst e) (CheckStatusInterval job))) (l1 ++ l2)) as Le.
        rewrite tally_app in Le. lia.
    + simpl. exact JQ.
    + intros c0 d L0 I. apply filter_In in I as [I _].
      destruct (Cl _ L0) as (c1 & L1 & -> & _). eauto.
    + intros c0 e L0 I P. destruct (Cl _ L0) as (c1 & L1 & E1 & E2 & E3).
      unfold post_ok. rewrite E1, E2, E3. destruct I as [<-|I].
      * unfold is_post in P. simpl in P. apply N.eqb_eq in P; subst j.
        rewrite L in L1. inversion L1; subst c1. simpl. split; [exact Hn|eauto].
      * exact (JP c1 e L1 I P).
Qed.

Lemma inv_answer job rid rest rid' r mid t t' :
  take N.eqb rid ps = Some (KSubmit job, rest) ->
  forallb (fun e => quiet_obs (snd e)) mid = true ->
  inv_core n ts (rest ++ [(rid', KFinal job)]) cs k
    ((t, Fetch rid' (KFinal job) CheckStatus)
       :: mid ++ (t', Received (KSubmit job) r) :: l).
Proof.
  intros T Q. destruct (take_split _ _ _ _ _ T) as (l1 & k' & l2 & E & -> & _).
  destruct H as [Hd Hf Hj]. split; auto.
  intros j. destruct (Hj j) as [JA JR JF JS JQ JD JP].
  destruct (quiet_segment j mid ((t', Received (KSubmit job) r) :: l) Q)
    as (M1 & M2 & M3 & M4 & M5).
  split.
  - rewrite !tally_cons, M1, M2. rewrite E in JA. tal. lia.
  - rewrite !tally_cons, M2, M3. tal. lia.
  - rewrite !tally_cons, M1. tal. exact JF.
  - intros Hp. apply JS. rewrite !tally_cons, M1 in Hp. tal. exact Hp.
  - simpl. rewrite M4. simpl. exact JQ.
  - exact JD.
  - intros c e L [<-|I] P; [discriminate P|].
    apply in_app_iff in I as [I|[<-|I]].
    + rewrite (M5 e I) in P. discriminate.
    + discriminate P.
    + eauto.
Qed.
End InvFinalize.

(** ** The invariant holds in every reachable state *)

Ltac inv_auto :=
  repeat first
    [ assumption
    | apply inv_obs; [|reflexivity]
    | apply inv_pending_add; [|reflexivity]
    | apply inv_timer_add; [|reflexivity|lia]
    | apply inv_clear_interval ].

Ltac inv_done s :=
  inv_auto; try (apply inv_next with (k := next_id s); [inv_auto|lia]).

Lemma Inv_init : Inv init.
Proof.
  split; simpl.
  - intros t d [].
  - discriminate.
  - intros job. split; simpl; auto; try discriminate; try tauto.
Qed.

Lemma Inv_appendChild body s : Inv s -> Inv (snd (appendChild body s)).
Proof. unfold Inv. intros H. cbn. inv_done s. Qed.

Lemma Inv_alert d s : Inv s -> Inv (alert d s).
Proof. unfold Inv. intros H. cbn. inv_done s. Qed.

Lemma Inv_observe o s : quiet_obs o = true -> Inv s -> Inv (observe o s).
Proof. unfold Inv. intros Q H. cbn. now apply inv_obs. Qed.

Lemma Inv_setStatus by_ txt s : Inv s -> Inv (setStatus by_ txt s).
Proof. unfold Inv. intros H. cbn. inv_done s. Qed.

Lemma Inv_startProcessingFlow p f s : Inv s -> Inv (startProcessingFlow p f s).
Proof.
  unfold Inv. intros H. cbn. inv_auto.
  apply inv_start with (k := next_id s); auto; lia.
Qed.

Lemma Inv_sendMessage s : Inv s -> Inv (sendMessage s).
Proof.
  intros H. unfold sendMessage. destruct (Str.isEmpty _); [exact H|].
  apply Inv_startProcessingFlow.
  apply (Inv_appendChild (Plain User (MText (Str.trim (chatInput s))))
           (set_welcomeDisplay s false)) in H.
  exact H.
Qed.

Lemma Inv_newChat s : Inv s -> Inv (newChat s).
Proof. unfold Inv. intros H. cbn. inv_done s. Qed.

Lemma Inv_download_click s : Inv s -> Inv (download_click s).
Proof. unfold Inv. intros H. cbn. inv_done s. Qed.

Lemma Inv_handleFileSelection v f s : Inv s -> Inv (handleFileSelection v f s).
Proof.
  intros H. unfold handleFileSelection.
  destruct f as [f|]; [|exact H].
  destruct v; repeat match goal with |- context [if ?b then _ else _] => destruct b end;
    try (now apply Inv_alert); unfold Inv in *; cbn; inv_done s.
Qed.

Lemma Inv_fire v t s s' : Inv s -> fire v t s = Some s' -> Inv s'.
Proof.
  unfold Inv, fire. intros H F.
  destruct (take timer_id_eqb t (timers s)) as [[due rest]|] eqn:T; [|discriminate].
  destruct (due <=? now s) eqn:D; [|discriminate]. apply N.leb_le in D.
  destruct t as [job|job|m|m].
  - unfold checkStatus_tick in F. cbn in F.
    destruct (lookup job (closures s)) as [c|]; [|discriminate].
    pose proof (inv_rearm _ _ _ _ _ _ H _ _ _ T) as R.
    destruct (processingDone c); inversion F; subst s'; cbn.
    + now apply inv_clear_interval.
    + apply inv_next with (k := next_id s); [|lia].
      apply inv_poll; [exact R|].
      rewrite tally_app, tally_cons. simpl. rewrite N.eqb_refl. lia.
  - unfold finalize_timeout in F. cbn in F.
    destruct (lookup job (closures s)) as [c|] eqn:L; [|discriminate].
    inversion F; subst s'; cbn.
    apply inv_next with (k := next_id s); [|lia].
    apply (inv_finalize _ _ _ _ _ _ H job c due rest); auto.
  - inversion F; subst s'. pose proof (inv_timer_take _ _ _ _ _ _ H _ _ _ T eq_refl) as R.
    destruct v; cbn; inv_done s.
  - inversion F; subst s'. pose proof (inv_timer_take _ _ _ _ _ _ H _ _ _ T eq_refl) as R.
    cbn; inv_done s.
Qed.

Lemma Inv_deliver v rid r s s' : Inv s -> deliver v rid r s = Some s' -> Inv s'.
Proof.
  unfold Inv, deliver. intros H F.
  destruct (take N.eqb rid (pending s)) as [[k rest]|] eqn:T; [|discriminate].
  destruct k as [job|job|job| |]; destruct r as [x|x|x]; try discriminate F;
    cbn in F; inversion F; subst s'; clear F.
  - pose proof (inv_pending_take _ _ _ _ _ _ H _ _ _ T eq_refl) as R.
    destruct x as [|d]; cbn; [inv_done s|].
    unfold checkStatus_resume.
    repeat match goal with |- context [if ?b then _ else _] => destruct b end;
      cbn; inv_done s.
  - unfold finalize_afterSubmit, simulateAIResponse_resume.
    destruct x as [|[] [|[t|]]]; destruct v; cbn;
      apply inv_next with (k := next_id s); try lia;
      first
        [ apply (inv_answer _ _ _ _ _ _ H job rid rest _ _ [(_, _)]); [exact T|reflexivity]
        | apply (inv_answer _ _ _ _ _ _ H job rid rest _ _ [(_, _); (_, _)]);
          [exact T|reflexivity] ].
  - pose proof (inv_pending_take _ _ _ _ _ _ H _ _ _ T eq_refl) as R.
    destruct x as [|d]; cbn; [inv_done s|].
    unfold finalize_resume.
    repeat match goal with |- context [if ?b then _ else _] => destruct b end;
      cbn; inv_done s.
  - pose proof (inv_pending_take _ _ _ _ _ _ H _ _ _ T eq_refl) as R.
    destruct x as [|d]; cbn; [inv_done s|].
    unfold download_afterStatus.
    repeat match goal with |- context [if ?b then _ else _] => destruct b end;
      cbn; inv_done s.
  - pose proof (inv_pending_take _ _ _ _ _ _ H _ _ _ T eq_refl) as R.
    destruct x as [|[]]; cbn; inv_done s.
Qed.

Lemma Inv_step v s e s' : Inv s -> step v s e = Some s' -> Inv s'.
Proof.
  intros H F. destruct e as [dt|t|rid r|text| | | |f|rd b|rd]; simpl in F.
  - unfold advance in F.
    destruct (forallb _ _) eqn:A; inversion F; subst s'.
    unfold Inv in *. cbn. now apply inv_advance.
  - eapply Inv_fire; eauto.
  - eapply Inv_deliver; eauto.
  - inversion F; subst s'. exact H.
  - inversion F; subst s'. now apply Inv_sendMessage.
  - inversion F; subst s'. now apply Inv_newChat.
  - inversion F; subst s'. now apply Inv_download_click.
  - inversion F; subst s'. now apply Inv_handleFileSelection.
  - destruct (take N.eqb rd (readers s)) as [[f rest]|]; inversion F; subst s'.
    unfold reader_onload. apply Inv_startProcessingFlow.
    apply (Inv_appendChild (Plain User (MUpload (name f) (size f)))
             (set_readers s rest)). exact H.
  - destruct (take N.eqb rd (readers s)) as [[f rest]|]; inversion F; subst s'.
    destruct v; simpl; [exact H|]. apply Inv_alert. exact H.
Qed.

Lemma Inv_run v es : forall s s', Inv s -> run v s es = Some s' -> Inv s'.
Proof.
  induction es as [|e es IH]; simpl; intros s s' H R.
  - inversion R; subst; exact H.
  - destruct (step v s e) as [s1|] eqn:E; [|discriminate].
    eapply IH; [|exact R]. eapply Inv_step; eauto.
Qed.

Lemma Inv_reachable v s : reachable v s -> Inv s.
Proof. intros [es R]. eapply Inv_run; [apply Inv_init|exact R]. Qed.

Ltac split_ifs :=
  repeat match goal with
         | |- context [if ?b then _ else _] => let E := fresh "E" in destruct b eqn:E
         end.

(** ** The download button follows the reconciliations *)

Lemma Shown_step v s e s' : Shown s -> step v s e = Some s' -> Shown s'.
Proof.
  unfold Shown. intros H F.
  destruct e as [dt|t|rid r|text| | | |f|rd b|rd]; simpl in F.
  - unfold advance in F. destruct (forallb _ _); inversion F; subst s'. exact H.
  - unfold fire in F.
    destruct (take timer_id_eqb t (timers s)) as [[due rest]|]; [|discriminate].
    destruct (due <=? now s); [|discriminate].
    destruct t as [job|job|m|m].
    + unfold checkStatus_tick in F. cbn in F.
      destruct (lookup job (closures s)) as [c|]; [|discriminate].
      destruct (processingDone c); inversion F; subst s'; exact H.
    + unfold finalize_timeout in F. cbn in F.
      destruct (lookup job (closures s)) as [c|]; [|discriminate].
      inversion F; subst s'; exact H.
    + inversion F; subst s'. destruct v; exact H.
    + inversion F; subst s'. exact H.
  - unfold deliver in F.
    destruct (take N.eqb rid (pending s)) as [[k rest]|]; [|discriminate].
    destruct k as [job|job|job| |]; destruct r as [x|x|x]; try discriminate F;
      cbn in F; inversion F; subst s'; clear F.
    + destruct x as [|d]; [exact H|]. unfold checkStatus_resume.
      split_ifs; exact H.
    + unfold finalize_afterSubmit, simulateAIResponse_resume.
      destruct x as [|[] [|[t|]]]; destruct v; exact H.
    + destruct x as [|d]; [exact H|]. unfold finalize_resume.
      unfold completed_since_hidden, is_completed in *.
      split_ifs; cbn; rewrite ?E, ?E0; simpl; auto.
    + destruct x as [|d]; [exact H|]. unfold download_afterStatus.
      split_ifs; exact H.
    + destruct x as [|[]]; exact H.
  - inversion F; subst s'. exact H.
  - inversion F; subst s'. unfold sendMessage.
    destruct (Str.isEmpty _); [exact H|reflexivity].
  - inversion F; subst s'. reflexivity.
  - inversion F; subst s'. exact H.
  - inversion F; subst s'. unfold handleFileSelection.
    destruct f as [f|]; [|exact H]. destruct v; split_ifs; exact H.
  - destruct (take N.eqb rd (readers s)) as [[f rest]|]; inversion F; subst s'.
    reflexivity.
  - destruct (take N.eqb rd (readers s)) as [[f rest]|]; inversion F; subst s'.
    destruct v; exact H.
Qed.

Lemma Shown_run v es : forall s s', Shown s -> run v s es = Some s' -> Shown s'.
Proof.
  induction es as [|e es IH]; simpl; intros s s' H R.
  - inversion R; subst; exact H.
  - destruct (step v s e) as [s1|] eqn:E; [|discriminate].
    eapply IH; [|exact R]. eapply Shown_step; eauto.
Qed.

(** ** Exactly one finalize fetch, five seconds after submission *)

Lemma In_take_timer (t : timer_id) (d : N) (l : list (timer_id * N)) :
  In (t, d) l ->
  exists d' rest, take timer_id_eqb t l = Some (d', rest) /\ In (t, d') l.
Proof.
  induction l as [|[t0 d0] l IH]; intros I; [destruct I|].
  simpl. destruct (timer_id_eqb t0 t) eqn:E.
  - apply timer_id_eqb_eq in E; subst t0. exists d0, l. split; [reflexivity|now left].
  - destruct I as [I|I].
    + inversion I; subst. rewrite timer_id_eqb_refl in E. discriminate.
    + destruct (IH I) as (d' & rest & T & I'). rewrite T.
      exists d', ((t0, d0) :: rest). split; [reflexivity|now right].
Qed.

Lemma run_app (v : variant) (es1 es2 : list event) :
  forall s, run v s (es1 ++ es2)
            = match run v s es1 with Some s' => run v s' es2 | None => None end.
Proof.
  induction es1 as [|e es1 IH]; intros s; simpl; [reflexivity|].
  destruct (step v s e); [apply IH|reflexivity].
Qed.

Lemma tally_pos_In {A : Type} (p : A -> bool) (l : list A) :
  tally p l <> O -> exists e, In e l /\ p e = true.
Proof.
  induction l as [|x l IH]; [intros T; now destruct T|].
  rewrite tally_cons. destruct (p x) eqn:P.
  - intros _. exists x. simpl; auto.
  - intros T. destruct IH as (e & I & Pe); [simpl in T; exact T|].
    exists e. simpl; auto.
Qed.

(** A prompt that is not blank starts a job that carries the trimmed text
    and remembers the clock. *)
Lemma sendMessage_starts_job (s : state) :
  Str.isEmpty (Str.trim (chatInput s)) = false ->
  exists c, lookup (N.succ (next_id s)) (closures (sendMessage s)) = Some c /\
            userPrompt c = Some (Str.trim (chatInput s)) /\
            fileDataBase64 c = None /\ submittedAt c = now s.
Proof.
  intros E. unfold sendMessage. rewrite E. cbn. rewrite N.eqb_refl.
  eexists. split; [reflexivity|]. now repeat split.
Qed.

(** A file that has been read starts a job that carries its content. *)
Lemma reader_onload_starts_job (f : file) (base64Data : option string) (s : state) :
  exists c, lookup (N.succ (next_id s)) (closures (reader_onload f base64Data s)) = Some c /\
            userPrompt c = None /\
            fileDataBase64 c = base64Data /\ submittedAt c = now s.
Proof.
  unfold reader_onload. cbn. rewrite N.eqb_refl.
  eexists. split; [reflexivity|]. now repeat split.
Qed.

(** C1. In every run of the page and for every job (every call of
    [startProcessingFlow], which is what a valid prompt or an accepted file
    leads to): each POST to process_prompt made for the job leaves exactly
    five seconds after the submission and carries the job's payload; there
    is at most one, and exactly one as soon as the clock has passed the five
    seconds, whatever poll ticks, resets or other submissions happened in
    between; the final check_status fetch of the job is issued once for
    each answer to that POST, hence at most once and only after the POST.
    The finalize timer of a job can always fire once it is due, and firing
    it makes the POST. *)
Theorem finalize_fetch_once (v : variant) (es : list event) (s : state)
    (job : N) (c : closure) :
  run v init es = Some s ->
  lookup job (closures s) = Some c ->
  (forall e, In e (posts job (log s)) -> post_ok job c e) /\
  (List.length (posts job (log s)) <= 1)%nat /\
  (submittedAt c + 5000 < now s -> List.length (posts job (log s)) = 1%nat) /\
  List.length (reconciles job (log s)) = tally (is_answer job) (log s) /\
  (List.length (reconciles job (log s)) <= List.length (posts job (log s)))%nat /\
  (forall d, In (FinalizeTimeout job, d) (timers s) -> d <= now s ->
             exists s', step v s (Fire (FinalizeTimeout job)) = Some s' /\
                        List.length (posts job (log s')) = 1%nat).
Proof.
  intros R L.
  assert (I : Inv s) by (apply (Inv_reachable v); now exists es).
  destruct I as [Hd Hf Hj]. destruct (Hj job) as [JA JR JF JS JQ JD JP].
  rewrite L in JF. unfold posts, reconciles. fold (tally (is_post job) (log s)).
  fold (tally (is_reconcile job) (log s)).
  split; [|split; [|split; [|split; [|split]]]].
  - intros e I. apply filter_In in I as [I P]. exact (JP c e L I P).
  - lia.
  - intros Late.
    destruct (Nat.eq_dec (tally (is_finalize job) (timers s)) 0) as [Z|NZ]; [lia|].
    destruct (tally_pos_In _ _ NZ) as ([t d] & I & P).
    simpl in P. apply timer_id_eqb_eq in P; subst t.
    pose proof (JD c d L I). pose proof (Hd _ _ I). lia.
  - exact JR.
  - lia.
  - intros d I Due.
    destruct (In_take_timer _ _ _ I) as (d' & rest & T & I').
    assert (d' = d) by (rewrite (JD c d' L I'), (JD c d L I); reflexivity). subst d'.
    assert (Fs : fire v (FinalizeTimeout job) s
                 = finalize_timeout job (set_timers s rest)).
    { unfold fire. rewrite T. apply N.leb_le in Due. now rewrite Due. }
    assert (St : exists s', finalize_timeout job (set_timers s rest) = Some s').
    { unfold finalize_timeout. cbn [closures set_timers]. rewrite L. eauto. }
    destruct St as (s' & St). exists s'. cbn [step]. rewrite Fs. split; [exact St|].
    assert (R' : run v init (es ++ [Fire (FinalizeTimeout job)]) = Some s').
    { rewrite run_app, R. cbn [run step]. now rewrite Fs, St. }
    assert (I2 : Inv s') by (apply (Inv_reachable v); eexists; exact R').
    destruct I2 as [_ _ Hj']. destruct (Hj' job) as [_ _ JF' _ _ _ _].
    assert (P1 : tally (is_post job) (log s') <> O).
    { unfold finalize_timeout in St. cbn [closures set_timers] in St.
      rewrite L in St. inversion St; subst s'. unfold tally. cbn.
      rewrite N.eqb_refl. discriminate. }
    unfold posts. fold (tally (is_post job) (log s')).
    destruct (lookup job (closures s')); lia.
Qed.

Lemma finalize_fetch_once_witness :
  exists s c,
    run Part000 init (hello_until_finalize ++ [Advance 1]) = Some s /\
    lookup 2 (closures s) = Some c /\
    submittedAt c + 5000 < now s /\
    List.length (posts 2 (log s)) = 1%nat.
Proof.
  eexists. eexists.
  split; [vm_compute; reflexivity|].
  split; [vm_compute; reflexivity|].
  split; [vm_compute; reflexivity|].
  eapply (finalize_fetch_once Part000 (hello_until_finalize ++ [Advance 1]) _ 2 _).
  - vm_compute; reflexivity.
  - vm_compute; reflexivity.
  - vm_compute; reflexivity.
Defined.

(** No poll tick of a job fires once its finalize callback has started:
    in every reachable state no [check_status] fetch of a job's interval is
    newer than the job's POST. *)
Lemma poll_never_fires_after_finalize (v : variant) (s : state) (job : N) :
  reachable v s -> polls_after_post job (log s) = O.
Proof.
  intros R. destruct (Inv_reachable v s R) as [_ _ Hj]. apply (Hj job).
Qed.

(** ** White space and a blank prompt *)

Lemma strip_length (s r : string) :
  Str.strip s = Some r -> (String.length r < String.length s)%nat.
Proof.
  unfold Str.strip.
  destruct (Str.space_width s) as [|[|[|[|n]]]]; destruct s as [|a [|b [|c s]]];
    try discriminate; intros E; injection E as <-; cbn [String.length]; lia.
Qed.

(** Induction along [strip]. *)
Lemma strip_ind (P : string -> Prop) :
  (forall s, (forall r, Str.strip s = Some r -> P r) -> P s) -> forall s, P s.
Proof.
  intros H s. remember (String.length s) as n eqn:E.
  revert s E. induction n as [n IH] using lt_wf_ind. intros s ->.
  apply H. intros r R. apply (IH _ (strip_length _ _ R) r eq_refl).
Qed.

Lemma trimStart_eq (s : string) :
  Str.trimStart s = match Str.strip s with Some r => Str.trimStart r | None => s end.
Proof.
  unfold Str.strip. destruct s as [|a [|b [|c s]]]; cbn [Str.trimStart];
    destruct (Str.space_width _) as [|[|[|[|n]]]]; reflexivity.
Qed.

Lemma all_space_eq (s : string) :
  Str.all_space s =
  match s with
  | EmptyString => true
  | _ => match Str.strip s with Some r => Str.all_space r | None => false end
  end.
Proof.
  unfold Str.strip. destruct s as [|a [|b [|c s]]]; cbn [Str.all_space];
    try destruct (Str.space_width _) as [|[|[|[|n]]]]; reflexivity.
Qed.

Lemma strip_empty : Str.strip EmptyString = None.
Proof. reflexivity. Qed.

Lemma decode_app (p q : string) (x : N * nat) :
  Str.decode p = Some x -> Str.decode (p ++ q) = Some x.
Proof.
  destruct p as [|a [|b [|c [|d p]]]]; cbn [Str.decode String.append];
    repeat match goal with
           | |- context [if ?t then _ else _] => destruct t
           | |- context [match Str.continuation ?t with _ => _ end] =>
               destruct (Str.continuation t)
           end; auto; discriminate.
Qed.

Lemma strip_app (p q r : string) :
  Str.strip p = Some r -> Str.strip (p ++ q) = Some (r ++ q)%string.
Proof.
  unfold Str.strip, Str.space_width.
  destruct (Str.decode p) as [[cp n]|] eqn:D.
  - rewrite (decode_app _ q _ D). destruct (Str.is_space cp); [|discriminate].
    destruct n as [|[|[|[|n]]]]; destruct p as [|a [|b [|c p]]];
      try discriminate; intros E; injection E as <-; reflexivity.
  - discriminate.
Qed.

(** A blank string trims to the empty string, and only a blank string
    does: [all_space] is the test [trim() === ''] of [sendMessage]. *)
Lemma trimStart_all_space (s : string) :
  Str.all_space s = true -> Str.trimStart s = EmptyString.
Proof.
  induction s as [s IH] using strip_ind.
  rewrite all_space_eq, trimStart_eq. destruct s as [|a s]; [reflexivity|].
  destruct (Str.strip (String a s)) as [r|]; [auto|discriminate].
Qed.

Lemma trim_all_space (s : string) :
  Str.all_space s = true -> Str.trim s = EmptyString.
Proof. intros A. unfold Str.trim. now rewrite trimStart_all_space. Qed.

Lemma all_space_trimStart (s : string) :
  Str.all_space (Str.trimStart s) = true -> Str.all_space s = true.
Proof.
  induction s as [s IH] using strip_ind.
  rewrite trimStart_eq, (all_space_eq s). destruct s as [|a s]; [reflexivity|].
  destruct (Str.strip (String a s)) as [r|] eqn:E; [auto|].
  rewrite all_space_eq, E. discriminate.
Qed.

Lemma trimEnd_empty (s : string) :
  Str.trimEnd s = EmptyString -> Str.all_space s = true.
Proof.
  destruct s as [|c r]; [reflexivity|]. cbn [Str.trimEnd].
  destruct (Str.all_space (String c r)); [reflexivity|discriminate].
Qed.

Lemma blank_iff_trim_empty (s : string) :
  Str.isEmpty (Str.trim s) = true <-> Str.all_space s = true.
Proof.
  split.
  - intros E. apply all_space_trimStart, trimEnd_empty.
    unfold Str.trim in E. now destruct (Str.trimEnd (Str.trimStart s)).
  - intros A. now rewrite trim_all_space.
Qed.

(** ** Trimming twice *)

Lemma all_space_app (p q : string) :
  Str.all_space p = true -> Str.all_space (p ++ q) = Str.all_space q.
Proof.
  induction p as [p IH] using strip_ind.
  destruct p as [|a p]; [reflexivity|].
  rewrite all_space_eq. destruct (Str.strip (String a p)) as [r|] eqn:E; [|discriminate].
  intros A. rewrite (all_space_eq (String a p ++ q)). cbn [String.append].
  change (String a (p ++ q)%string) with (String a p ++ q)%string.
  rewrite (strip_app _ q _ E). now apply IH.
Qed.

Lemma trimEnd_split (s : string) :
  exists q, s = (Str.trimEnd s ++ q)%string /\ Str.all_space q = true.
Proof.
  induction s as [|c r [q [E A]]]; [now exists EmptyString|].
  cbn [Str.trimEnd]. destruct (Str.all_space (String c r)) eqn:B.
  - now exists (String c r).
  - exists q. split; [|exact A]. cbn [String.append]. now rewrite <- E.
Qed.

Lemma all_space_trimEnd_cons (c : ascii) (s : string) :
  Str.all_space (String c (Str.trimEnd s)) = true -> Str.all_space (String c s) = true.
Proof.
  intros B. destruct (trimEnd_split s) as [q [E Q]].
  pose proof (all_space_app _ q B) as C. cbn [String.append] in C.
  now rewrite <- E, Q in C.
Qed.

Lemma trimEnd_idem (s : string) : Str.trimEnd (Str.trimEnd s) = Str.trimEnd s.
Proof.
  induction s as [|c r IH]; [reflexivity|].
  cbn [Str.trimEnd]. destruct (Str.all_space (String c r)) eqn:A; [reflexivity|].
  cbn [Str.trimEnd]. destruct (Str.all_space (String c (Str.trimEnd r))) eqn:B.
  - apply all_space_trimEnd_cons in B. congruence.
  - now rewrite IH.
Qed.

Lemma strip_trimStart (s : string) : Str.strip (Str.trimStart s) = None.
Proof.
  induction s as [s IH] using strip_ind.
  rewrite trimStart_eq. destruct (Str.strip s) as [r|] eqn:E; [auto|exact E].
Qed.

Lemma strip_trimEnd (s : string) :
  Str.strip s = None -> Str.strip (Str.trimEnd s) = None.
Proof.
  intros N. destruct (Str.strip (Str.trimEnd s)) as [r|] eqn:E; [|reflexivity].
  destruct (trimEnd_split s) as [q [S _]].
  apply (strip_app _ q) in E. rewrite <- S in E. congruence.
Qed.

Lemma trim_idem (s : string) : Str.trim (Str.trim s) = Str.trim s.
Proof.
  unfold Str.trim.
  rewrite (trimStart_eq (Str.trimEnd _)), (strip_trimEnd _ (strip_trimStart s)).
  apply trimEnd_idem.
Qed.

(** ** The ends of a trimmed string *)

Lemma trimEnd_suffix (s q r : string) :
  Str.trimEnd s = (q ++ r)%string -> r <> EmptyString -> Str.all_space r = false.
Proof.
  revert q. induction s as [|c s IH]; intros q E NE.
  - cbn [Str.trimEnd] in E. destruct q; destruct r; try discriminate; congruence.
  - cbn [Str.trimEnd] in E. destruct (Str.all_space (String c s)) eqn:A.
    + destruct q; destruct r; try discriminate; congruence.
    + destruct q as [|a q]; cbn [String.append] in E.
      * subst r. destruct (Str.all_space (String c (Str.trimEnd s))) eqn:B;
          [|reflexivity].
        apply all_space_trimEnd_cons in B. congruence.
      * injection E as _ E. apply (IH q E NE).
Qed.

Lemma trim_no_space_at_ends (s : string) : no_space_at_ends (Str.trim s).
Proof.
  split.
  - apply strip_trimEnd, strip_trimStart.
  - intros q r E. apply (trimEnd_suffix (Str.trimStart s) q r E).
Qed.

(** ** The decoder against the encoder *)

Ltac div_mod_facts x y :=
  lazymatch goal with
  | _ : x = y * (x / y) + x mod y |- _ => fail
  | _ => pose proof (N.div_mod x y ltac:(discriminate));
         pose proof (N.mod_lt x y ltac:(discriminate));
         pose proof (N.le_0_l (x / y));
         pose proof (N.le_0_l (x mod y))
  end.

(** Linear arithmetic with the quotients and remainders at hand. *)
Ltac byte_arith :=
  repeat match goal with
         | |- context [?x / ?y] => div_mod_facts x y
         | |- context [?x mod ?y] => div_mod_facts x y
         | _ : context [?x / ?y] |- _ => div_mod_facts x y
         | _ : context [?x mod ?y] |- _ => div_mod_facts x y
         end;
  lia.

Lemma continuation_byte (n : N) :
  n < 64 -> Str.continuation (ascii_of_N (0x80 + n)) = Some n.
Proof.
  intros L. unfold Str.continuation. rewrite N_ascii_embedding by lia.
  destruct (N.leb_spec 0x80 (0x80 + n)); [|lia].
  destruct (N.ltb_spec (0x80 + n) 0xC0); [|lia].
  cbn [andb]. f_equal. lia.
Qed.

Lemma decode_encode (cp : N) (r : string) :
  cp < 0x110000 ->
  Str.decode (Str.encode cp ++ r) = Some (cp, String.length (Str.encode cp)).
Proof.
  intros L. unfold Str.encode.
  destruct (N.ltb_spec cp 0x80) as [A|A];
    [|destruct (N.ltb_spec cp 0x800) as [B|B];
      [|destruct (N.ltb_spec cp 0x10000) as [C|C]]];
    cbn [String.append Str.decode String.length].
  - rewrite N_ascii_embedding by lia. now destruct (N.ltb_spec cp 0x80); [|lia].
  - rewrite N_ascii_embedding by byte_arith.
    rewrite continuation_byte by byte_arith.
    repeat match goal with
           | |- context [?x <? ?y] => destruct (N.ltb_spec x y); try byte_arith
           | |- context [?x <=? ?y] => destruct (N.leb_spec x y); try byte_arith
           end.
    do 2 f_equal. byte_arith.
  - rewrite N_ascii_embedding by byte_arith.
    rewrite !continuation_byte by byte_arith.
    repeat match goal with
           | |- context [?x <? ?y] => destruct (N.ltb_spec x y); try byte_arith
           | |- context [?x <=? ?y] => destruct (N.leb_spec x y); try byte_arith
           end.
    do 2 f_equal. byte_arith.
  - rewrite N_ascii_embedding by byte_arith.
    rewrite !continuation_byte by byte_arith.
    repeat match goal with
           | |- context [?x <? ?y] => destruct (N.ltb_spec x y); try byte_arith
           | |- context [?x <=? ?y] => destruct (N.leb_spec x y); try byte_arith
           end.
    cbn [andb]. do 2 f_equal. byte_arith.
Qed.

Lemma is_space_bmp (cp : N) : Str.is_space cp = true -> cp < 0x10000.
Proof.
  unfold Str.is_space.
  rewrite !orb_true_iff, !andb_true_iff, !N.eqb_eq, !N.leb_le. lia.
Qed.

Lemma encode_cons (cp : N) : exists a r, Str.encode cp = String a r.
Proof.
  unfold Str.encode.
  destruct (cp <? 0x80); [|destruct (cp <? 0x800); [|destruct (cp <? 0x10000)]];
    eauto.
Qed.

(** [strip] takes a whole character, and exactly when it is white space. *)
Lemma strip_encode (cp : N) (r : string) :
  cp < 0x110000 ->
  Str.strip (Str.encode cp ++ r) = if Str.is_space cp then Some r else None.
Proof.
  intros L. unfold Str.strip, Str.space_width. rewrite (decode_encode cp r L).
  destruct (Str.is_space cp) eqn:W.
  - apply is_space_bmp in W. unfold Str.encode.
    destruct (N.ltb_spec cp 0x80); [reflexivity|].
    destruct (N.ltb_spec cp 0x800); [reflexivity|].
    destruct (N.ltb_spec cp 0x10000); [reflexivity|lia].
  - reflexivity.
Qed.

(** A text is blank exactly when each of its characters is white space. *)
Lemma all_space_utf8 (cps : list N) :
  Forall (fun cp => cp < 0x110000) cps ->
  Str.all_space (Str.utf8 cps) = forallb Str.is_space cps.
Proof.
  induction 1 as [|cp cps L _ IH]; [reflexivity|].
  cbn [Str.utf8 fold_right forallb]. fold (Str.utf8 cps).
  rewrite all_space_eq, (strip_encode cp _ L).
  destruct (encode_cons cp) as (a & e & ->). cbn [String.append].
  destruct (Str.is_space cp); [exact IH|reflexivity].
Qed.

(** C10. When [chatInput] holds the empty string or only white space, a
    click on send (or Enter) leaves the whole page state as it was: no chat
    element, no job, no timer, no request, and the status line, the download
    button and the input are untouched.  White space is every character
    that [trim] strips, whether it takes one byte or more
    ([all_space_utf8]), and the hypothesis is the script's own test of the
    trimmed text against the empty string ([blank_iff_trim_empty]). *)
Theorem sendMessage_blank_noop (v : variant) (s : state) :
  Str.all_space (chatInput s) = true ->
  step v s ClickSend = Some s.
Proof.
  intros A. simpl. unfold sendMessage. now rewrite (trim_all_space _ A).
Qed.

Lemma sendMessage_blank_noop_witness :
  Str.all_space (chatInput (set_chatInput init blank_input)) = true /\
  step Part000 (set_chatInput init blank_input) ClickSend
  = Some (set_chatInput init blank_input).
Proof.
  split; [vm_compute; reflexivity|].
  apply (sendMessage_blank_noop Part000 (set_chatInput init blank_input)).
  vm_compute; reflexivity.
Defined.

(** ** The status line at the two call sites *)

(** C8 (counterexample).  For 'processing' the poll tick writes the
    agent-is-working text and the reconciliation writes nothing. *)
Lemma status_mapping_differs : ~ status_mapping_identical.
Proof.
  intros C.
  specialize (C 2 {| status := Some "processing"; timestamp := None |} init).
  vm_compute in C. discriminate C.
Qed.

(** C8 (amended). The poll tick applies the spec's mapping to every status.
    The reconciliation applies the same mapping when the status is
    'completed' or 'failed'; for 'processing' and for an unknown or absent
    status it writes nothing and leaves the page as it was. *)
Theorem status_mapping_sites (job : N) (d : status_data) (s : state) :
  poll_site job d s = spec_status_text (now s) d /\
  (if status_is d "completed" || status_is d "failed"
   then finalize_site job d s = spec_status_text (now s) d
   else finalize_resume job (Json d) s = s).
Proof.
  unfold poll_site, finalize_site, spec_status_text, checkStatus_resume, finalize_resume.
  destruct (status_is d "completed"), (status_is d "failed"),
    (status_is d "processing"); simpl; auto.
Qed.

(** ** The download handler *)

(** C5. For every click on the download button: the click issues the
    status fetch and nothing else.  When that fetch reports 'processing'
    the handler opens the please-wait dialog and ends: no [get_output]
    request leaves, nothing is armed.  When it reports 'failed' the handler
    opens the failure dialog and ends in the same way.  For any other
    status it issues the [get_output] probe.  When the probe reports that
    the file is not there, the handler opens the please-wait dialog and ends
    without navigating; only when the probe succeeds does it write the
    downloading status and navigate to the download.  (A fetch that throws
    ends the handler with the connection dialog, again without a probe or a
    navigation.) *)
Theorem download_guarded (v : variant) (s : state) :
  (step v s ClickDownload = Some (download_click s) /\
   log (download_click s) = (now s, Fetch (next_id s) KDownloadStatus CheckStatus) :: log s /\
   pending (download_click s) = pending s ++ [(next_id s, KDownloadStatus)] /\
   timers (download_click s) = timers s) /\
  (forall rid rest x,
     take N.eqb rid (pending s) = Some (KDownloadStatus, rest) ->
     exists s', step v s (Deliver rid (RStatus x)) = Some s' /\
       pending s' = match x with
                    | Json d =>
                        if status_is d "processing" || status_is d "failed" then rest
                        else rest ++ [(next_id s, KDownloadProbe)]
                    | Threw => rest
                    end /\
       timers s' = timers s /\
       processingStatusArea s' = processingStatusArea s /\
       let got := (now s, Received KDownloadStatus (RStatus x)) in
       log s' = match x with
                | Json d =>
                    if status_is d "processing" then
                      (now s, Alert DlgProcessing) :: got :: log s
                    else if status_is d "failed" then
                      (now s, Alert DlgFailed) :: got :: log s
                    else
                      (now s, Fetch (next_id s) KDownloadProbe GetOutput) :: got :: log s
                | Threw =>
                    (now s, Alert DlgConnection) :: (now s, ConsoleError) :: got :: log s
                end) /\
  (forall rid rest x,
     take N.eqb rid (pending s) = Some (KDownloadProbe, rest) ->
     exists s', step v s (Deliver rid (RProbe x)) = Some s' /\
       pending s' = rest /\
       let got := (now s, Received KDownloadProbe (RProbe x)) in
       match x with
       | Json true =>
           log s' = (now s, Navigate) :: (now s, StatusText ByDownload StDownloading)
                      :: got :: log s /\
           timers s' = timers s ++ [(DownloadedTimeout (next_id s), now s + 1000)]
       | Json false =>
           log s' = (now s, Alert DlgNotCreated) :: got :: log s /\
           timers s' = timers s /\
           processingStatusArea s' = processingStatusArea s
       | Threw =>
           log s' = (now s, Alert DlgConnection) :: (now s, ConsoleError) :: got :: log s /\
           timers s' = timers s /\
           processingStatusArea s' = processingStatusArea s
       end).
Proof.
  split; [now repeat split|]. split.
  - intros rid rest x T. simpl. unfold deliver. rewrite T. simpl.
    eexists. split; [reflexivity|].
    destruct x as [|d]; [now repeat split|].
    unfold download_afterStatus.
    destruct (status_is d "processing"); [now repeat split|].
    destruct (status_is d "failed"); now repeat split.
  - intros rid rest x T. simpl. unfold deliver. rewrite T. simpl.
    eexists. split; [reflexivity|].
    destruct x as [|[]]; now repeat split.
Qed.

Lemma download_guarded_witness :
  take N.eqb 1 (pending (download_click init)) = Some (KDownloadStatus, []) /\
  exists s',
    step Part000 (download_click init) (Deliver 1 (status_answer "processing" None))
      = Some s' /\
    log s' = [(0, Alert DlgProcessing);
              (0, Received KDownloadStatus (status_answer "processing" None));
              (0, Fetch 1 KDownloadStatus CheckStatus)] /\
    pending s' = [] /\ timers s' = [].
Proof.
  split; [reflexivity|].
  destruct (download_guarded Part000 (download_click init)) as (_ & H & _).
  destruct (H 1 [] (Json {| status := Some "processing"; timestamp := None |}) eq_refl)
    as (s' & St & P & T & _ & L).
  exists s'. split; [exact St|]. split; [exact L|]. split; [exact P|exact T].
Defined.

(** ** A failing POST *)

(** C7 (counterexample).  The POST fails with a non-2xx answer, the
    reconciliation reads 'completed', and the job shows the download
    button. *)
Lemma download_shown_after_failed_submit : ~ submit_failure_blocks_download.
Proof.
  intros C.
  destruct (run Part000 init hello_post_fails) as [s|] eqn:R;
    [|vm_compute in R; discriminate R].
  assert (Rs : reachable Part000 s) by (now exists hello_post_fails).
  vm_compute in R. injection R as <-.
  destruct (C _ _ 2 (PostHttp false Threw) 5000 Rs eq_refl) as [_ N].
  - simpl. tauto.
  - apply (N 5000). simpl. tauto.
Qed.

(** C7 (amended). When the answer to the POST of a job is a transport
    error, the error message is appended to the chat, the download button
    is left as it is, and the final check_status fetch of the job is issued
    all the same.  The answer to that fetch then decides: the button is
    shown when the status is 'completed' and is left as it is otherwise. *)
Theorem submit_failure_rendered (v : variant) (s : state) (rid job : N)
    (rest : list (N * kont)) :
  (forall r,
     take N.eqb rid (pending s) = Some (KSubmit job, rest) ->
     transport_error r = true ->
     exists s', step v s (Deliver rid (RPost r)) = Some s' /\
       chatWindow s' = chatWindow s ++
         [{| el_id := next_id s; el_body := Plain Ai MBackendError |}] /\
       downloadOutputBtn s' = downloadOutputBtn s /\
       processingStatusArea s' = processingStatusArea s /\
       pending s' = rest ++ [(N.succ (next_id s), KFinal job)]) /\
  (forall d,
     take N.eqb rid (pending s) = Some (KFinal job, rest) ->
     exists s', step v s (Deliver rid (RStatus (Json d))) = Some s' /\
       downloadOutputBtn s' = status_is d "completed" || downloadOutputBtn s).
Proof.
  split.
  - intros r T E. simpl. unfold deliver. rewrite T. simpl.
    eexists. split; [reflexivity|].
    destruct r as [|[] [|t]]; try discriminate E; now repeat split.
  - intros d T. simpl. unfold deliver. rewrite T. simpl.
    eexists. split; [reflexivity|].
    unfold finalize_resume.
    destruct (status_is d "completed"); [reflexivity|].
    destruct (status_is d "failed"); reflexivity.
Qed.

Lemma submit_failure_rendered_witness :
  exists s s',
    run Part000 init hello_until_finalize = Some s /\
    take N.eqb 7 (pending s) = Some (KSubmit 2, [(6, KPoll 2)]) /\
    transport_error PostRejected = true /\
    step Part000 s (Deliver 7 (RPost PostRejected)) = Some s' /\
    chatWindow s' = chatWindow s ++
      [{| el_id := next_id s; el_body := Plain Ai MBackendError |}] /\
    downloadOutputBtn s' = downloadOutputBtn s /\
    processingStatusArea s' = processingStatusArea s /\
    pending s' = [(6, KPoll 2)] ++ [(N.succ (next_id s), KFinal 2)].
Proof.
  destruct (run Part000 init hello_until_finalize) as [s|] eqn:R;
    [|vm_compute in R; discriminate R].
  vm_compute in R. injection R as <-.
  match goal with |- exists s s', Some ?x = Some s /\ _ =>
    destruct (submit_failure_rendered Part000 x 7 2 [(6, KPoll 2)]) as [H _];
    destruct (H PostRejected eq_refl eq_refl) as (s' & St & P);
    exists x, s'
  end.
  split; [reflexivity|]. split; [reflexivity|]. split; [reflexivity|].
  split; [exact St|exact P].
Defined.

(** ** Where network errors end up *)

(** Three of the four call sites sit in a try block: a failing poll writes
    the backend-error status, a failing POST appends the error message, a
    failing download check opens the connection dialog.  None of them lets
    the exception out. *)
Lemma network_errors_caught_in_try (v : variant) (job : N) (s : state) :
  log (checkStatus_resume job Threw s)
    = (now s, StatusText (ByPoll job) StBackendError) :: log s /\
  log (simulateAIResponse_resume v PostRejected s)
    = (now s, ChatAppend {| el_id := next_id s; el_body := Plain Ai MBackendError |})
        :: (now s, ConsoleError) :: log s /\
  log (download_afterStatus Threw s)
    = (now s, Alert DlgConnection) :: (now s, ConsoleError) :: log s /\
  log (download_afterProbe Threw s)
    = (now s, Alert DlgConnection) :: (now s, ConsoleError) :: log s.
Proof. now repeat split. Qed.

(** C9 (the code at the failing input).  When the check_status fetch that
    follows the POST fails, the exception leaves the timeout callback as an
    unhandled rejection, and nothing tells the user: no dialog, no error
    status, no error message; the status line still shows the preparing
    text. *)
Theorem final_status_error_unhandled :
  exists s,
    run Part000 init hello_final_status_fails = Some s /\
    filter is_unhandled (log s) = [(5000, UnhandledRejection (KFinal 2))] /\
    filter is_rendered_failure (log s) = [] /\
    processingStatusArea s = StPreparing /\
    downloadOutputBtn s = false.
Proof. eexists. split; [vm_compute; reflexivity|]. now vm_compute. Qed.

(** The same for every state in which the fetch is awaited, in both
    revisions: the only trace of the failure is the unhandled rejection. *)
Lemma final_status_error_silent (v : variant) (s : state) (rid job : N)
    (rest : list (N * kont)) :
  take N.eqb rid (pending s) = Some (KFinal job, rest) ->
  exists s', step v s (Deliver rid (RStatus Threw)) = Some s' /\
    log s' = (now s, UnhandledRejection (KFinal job))
               :: (now s, Received (KFinal job) (RStatus Threw)) :: log s /\
    processingStatusArea s' = processingStatusArea s /\
    chatWindow s' = chatWindow s /\
    downloadOutputBtn s' = downloadOutputBtn s.
Proof.
  intros T. simpl. unfold deliver. rewrite T. simpl.
  eexists. split; [reflexivity|]. now repeat split.
Qed.

(** ** File validation *)

(** C6 (the code at the failing input).  In [script.js] the handler has no
    extension check: a 1 MiB [a.exe] opens no dialog, is read, and its
    content is posted to process_prompt five seconds later.  The other
    revision rejects the same file with a dialog and nothing else. *)
Theorem exe_upload_reaches_backend :
  (exists s,
     run ScriptJs init exe_upload = Some s /\
     filter is_alert (log s) = [] /\
     posts 3 (log s) = [(5000, Fetch 8 (KSubmit 3) (ProcessPrompt None (Some "TVqQ")))]) /\
  handleFileSelection Part000 (Some exe_1MiB) init = alert DlgBadExtension init.
Proof.
  split; [|reflexivity].
  eexists. split; [vm_compute; reflexivity|]. now vm_compute.
Qed.

(** Both revisions reject a 6 MiB [.txt] with a dialog only, and both let a
    1 MiB [.pdf] through to the reader (the suffix is matched without
    regard to case in the second revision). *)
Lemma size_check_in_both_revisions (v : variant) (s : state) :
  handleFileSelection v (Some txt_6MiB) s = alert DlgTooLarge s /\
  handleFileSelection v (Some pdf_1MiB) s = readAsDataURL pdf_1MiB s.
Proof. destruct v; now split. Qed.

(** A rejection is local: one dialog, no request, no timer, no reader, no
    job. *)
Lemma alert_is_local (d : dialog) (s : state) :
  log (alert d s) = (now s, Alert d) :: log s /\
  pending (alert d s) = pending s /\ timers (alert d s) = timers s /\
  readers (alert d s) = readers s /\ closures (alert d s) = closures s /\
  chatWindow (alert d s) = chatWindow s.
Proof. now repeat split. Qed.

Lemma lower_ascii_dot (c : ascii) :
  Ascii.eqb (Str.lower_ascii c) "."%char = Ascii.eqb c "."%char.
Proof. destruct c as [[] [] [] [] [] [] [] []]; reflexivity. Qed.

Lemma has_dot_toLowerCase (s : string) : has_dot (Str.toLowerCase s) = has_dot s.
Proof.
  induction s as [|c r IH]; simpl; [reflexivity|]. now rewrite lower_ascii_dot, IH.
Qed.

Lemma lastIndexOf_dot (s : string) :
  match Str.lastIndexOf "."%char s with
  | Some _ => has_dot s = true
  | None => has_dot s = false
  end.
Proof.
  induction s as [|c r IH]; simpl; [reflexivity|].
  destruct (Str.lastIndexOf "."%char r).
  - rewrite IH. apply orb_true_r.
  - rewrite IH. destruct (Ascii.eqb c "."%char); reflexivity.
Qed.

Lemma endsWith_has_dot (e s : string) :
  has_dot e = true -> Str.endsWith e s = true -> has_dot s = true.
Proof.
  intros He. induction s as [|c r IH]; cbn [Str.endsWith has_dot].
  - rewrite orb_false_r. intros E. apply String.eqb_eq in E. now subst e.
  - intros E. apply orb_true_iff in E as [E|E].
    + apply String.eqb_eq in E. subst e. exact He.
    + rewrite (IH E). apply orb_true_r.
Qed.

Lemma extension_eqb_endsWith (w n : string) :
  has_dot w = false ->
  String.eqb (Str.toLowerCase (Str.substring (Str.lastIndexOf "."%char n) n))
             (String "."%char w)
  = Str.endsWith (String "."%char w) (Str.toLowerCase n).
Proof.
  intros Hw. induction n as [|a r IH]; [reflexivity|].
  pose proof (lastIndexOf_dot r) as D.
  cbn [Str.lastIndexOf Str.toLowerCase Str.endsWith].
  destruct (Str.lastIndexOf "."%char r) as [i|] eqn:L.
  - cbn [Str.substring Str.drop]. cbn [Str.substring] in IH. rewrite IH.
    assert (F : String.eqb (String (Str.lower_ascii a) (Str.toLowerCase r))
                           (String "."%char w) = false).
    { cbn [String.eqb]. destruct (Ascii.eqb (Str.lower_ascii a) "."%char); [|reflexivity].
      destruct (String.eqb (Str.toLowerCase r) w) eqn:E; [|reflexivity].
      apply String.eqb_eq in E. rewrite <- E, has_dot_toLowerCase, D in Hw.
      discriminate. }
    rewrite F. reflexivity.
  - assert (F : Str.endsWith (String "."%char w) (Str.toLowerCase r) = false).
    { destruct (Str.endsWith (String "."%char w) (Str.toLowerCase r)) eqn:E;
        [|reflexivity].
      apply endsWith_has_dot in E; [|reflexivity].
      rewrite has_dot_toLowerCase, D in E. discriminate. }
    rewrite F, orb_false_r.
    destruct (Ascii.eqb a "."%char); reflexivity.
Qed.

(** [allowedExtensions.includes(fileExtension)] holds exactly when the
    lower-cased name ends in one of the three extensions. *)
Lemma extension_check_is_suffix_match (f : file) :
  Str.includes allowedExtensions (fileExtension f)
  = existsb (fun e => Str.endsWith e (Str.toLowerCase (name f))) allowedExtensions.
Proof.
  unfold Str.includes, allowedExtensions, fileExtension. cbn [existsb].
  now rewrite !extension_eqb_endsWith.
Qed.

(** The second revision validates before anything leaves the page: a file
    is read when its name ends in an allowed extension and it has at most
    5 MiB, and is answered with a dialog and nothing else otherwise. *)
Lemma handleFileSelection_validates (f : file) (s : state) :
  if existsb (fun e => Str.endsWith e (Str.toLowerCase (name f))) allowedExtensions
     && (size f <=? 5 * 1024 * 1024)
  then handleFileSelection Part000 (Some f) s = readAsDataURL f s
  else exists d, handleFileSelection Part000 (Some f) s = alert d s.
Proof.
  rewrite <- extension_check_is_suffix_match. unfold handleFileSelection.
  destruct (Str.includes allowedExtensions (fileExtension f)); simpl; [|eauto].
  rewrite N.ltb_antisym. destruct (size f <=? _); simpl; eauto.
Qed.

(** ** A poll answer that arrives after finalization *)

(** Whatever has happened since the tick, the answer to a poll writes the
    status line: the segment after the [await] does not look at
    [processingDone] or at the timers. *)
Lemma poll_answer_always_writes (v : variant) (s : state) (rid job : N)
    (rest : list (N * kont)) (x : fetched status_data) :
  take N.eqb rid (pending s) = Some (KPoll job, rest) ->
  exists s' txt,
    step v s (Deliver rid (RStatus x)) = Some s' /\
    processingStatusArea s' = txt /\
    log s' = (now s, StatusText (ByPoll job) txt)
               :: (now s, Received (KPoll job) (RStatus x)) :: log s.
Proof.
  intros T. simpl. unfold deliver. rewrite T. simpl.
  destruct x as [|d]; [eexists; eexists; now repeat split|].
  unfold checkStatus_resume.
  destruct (status_is d "completed"); [eexists; eexists; now repeat split|].
  destruct (status_is d "failed"); [eexists; eexists; now repeat split|].
  destruct (status_is d "processing"); eexists; eexists; now repeat split.
Qed.

(** C2 (the code at the failing input).  The interval is cleared in the
    first segment of the finalize callback, and [processingDone] is only
    read at the start of a tick, never after the tick's [await].  So the
    answer to a poll that was in flight at 5 s still writes the status
    line: here the reconciled "completed" text is replaced at 5.5 s by the
    "agent is working" text while the download button stays visible. *)
Theorem stale_poll_overwrites_final_status :
  exists s,
    run Part000 init hello_stale_poll = Some s /\
    poll_writes_after_post 2 (log s) = 1%nat /\
    hd_error (log s) = Some (5500, StatusText (ByPoll 2) (StProcessing 5500)) /\
    processingStatusArea s = StProcessing 5500 /\
    downloadOutputBtn s = true.
Proof. eexists. split; [vm_compute; reflexivity|]. now vm_compute. Qed.

(** ** Reset *)

(** C3 (counterexample).  One second after "hello" the chat is reset; the
    job's timers fire all the same, and three more writes follow: the poll
    writes the status line, the answer is appended to the chat, the
    reconciliation writes the status line. *)
Lemma reset_leaves_job_running : ~ reset_silences.
Proof.
  intros C.
  destruct (run Part000 init hello_then_reset) as [s|] eqn:R;
    [|vm_compute in R; discriminate R].
  assert (Rs : reachable Part000 s) by (now exists hello_then_reset).
  vm_compute in R. injection R as <-.
  match type of Rs with reachable _ ?x =>
    destruct (run Part000 (newChat x) after_reset) as [s'|] eqn:R2;
      [|vm_compute in R2; discriminate R2];
    specialize (C _ _ Rs after_reset s' eq_refl R2)
  end.
  vm_compute in R2. injection R2 as <-.
  vm_compute in C. discriminate C.
Qed.

(** The same run in numbers: five writes before and at the reset, eight
    after the old job has run to its end; its answer sits in the cleared
    chat and the download button is back. *)
Lemma reset_then_time_passes :
  exists s s',
    run Part000 init hello_then_reset = Some s /\
    forallb passive after_reset = true /\
    run Part000 (newChat s) after_reset = Some s' /\
    tally is_mutation (log (newChat s)) = 5%nat /\
    tally is_mutation (log s') = 8%nat /\
    chatWindow s' = [welcomeMessage; {| el_id := 8; el_body := FormattedMessage Ai "done" |}] /\
    downloadOutputBtn s' = true.
Proof.
  eexists. eexists. split; [vm_compute; reflexivity|]. now vm_compute.
Qed.

(** Whether an event can happen depends only on the clock, the timers, the
    requests in flight, the readers and the closures. *)
Lemma enabled_frame (v : variant) (s s' : state) (e : event) :
  now s' = now s -> timers s' = timers s -> pending s' = pending s ->
  readers s' = readers s -> closures s' = closures s ->
  step v s e <> None -> step v s' e <> None.
Proof.
  intros En Et Ep Er Ec.
  destruct e as [dt|t|rid r|text| | | |f|rd b|rd]; cbn [step]; try discriminate.
  - unfold advance. rewrite En, Et. destruct (forallb _ _); [discriminate|auto].
  - unfold fire. rewrite En, Et.
    destruct (take timer_id_eqb t (timers s)) as [[due rest]|]; [|auto].
    destruct (due <=? now s); [|auto].
    destruct t as [job|job|m|m]; try discriminate.
    + unfold checkStatus_tick. cbn [closures set_timers]. rewrite Ec.
      destruct (lookup job (closures s)) as [c|]; [|auto].
      destruct (processingDone c); discriminate.
    + unfold finalize_timeout. cbn [closures set_timers]. rewrite Ec.
      destruct (lookup job (closures s)) as [c|]; [discriminate|auto].
  - unfold deliver. rewrite Ep.
    destruct (take N.eqb rid (pending s)) as [[k rest]|]; [|auto].
    destruct k, r; cbn [resume]; auto; discriminate.
  - rewrite Er. destruct (take N.eqb rd (readers s)) as [[f rest]|]; [discriminate|auto].
  - rewrite Er. destruct (take N.eqb rd (readers s)) as [[f rest]|]; [discriminate|auto].
Qed.

Lemma enabled_after_newChat (v : variant) (s : state) (e : event) :
  step v s e <> None -> step v (newChat s) e <> None.
Proof. now apply enabled_frame. Qed.

(** C3 (amended).  A click on new chat puts the chat back to the welcome
    message, empties the input, hides the download button and clears the
    status line.  It cancels no timer and discards no answer: the timers,
    the requests in flight, the readers and the jobs' closures are exactly
    what they were before the click, and every timer callback or answer
    that could run before the click can still run after it. *)
Theorem newChat_resets_display_only (v : variant) (s : state) :
  step v s ClickNewChat = Some (newChat s) /\
  chatWindow (newChat s) = [welcomeMessage] /\
  welcomeDisplay (newChat s) = true /\
  chatInput (newChat s) = "" /\
  downloadOutputBtn (newChat s) = false /\
  processingStatusArea (newChat s) = StEmpty /\
  timers (newChat s) = timers s /\
  pending (newChat s) = pending s /\
  readers (newChat s) = readers s /\
  closures (newChat s) = closures s /\
  now (newChat s) = now s /\
  (forall e, passive e = true -> step v s e <> None -> step v (newChat s) e <> None).
Proof.
  repeat split. intros e _. apply enabled_after_newChat.
Qed.

Lemma newChat_resets_display_only_witness :
  passive (Fire (FinalizeTimeout 2)) = true /\
  step Part000 (set_now (sendMessage (set_chatInput init "hello")) 5000)
    (Fire (FinalizeTimeout 2)) <> None /\
  step Part000 (newChat (set_now (sendMessage (set_chatInput init "hello")) 5000))
    (Fire (FinalizeTimeout 2)) <> None.
Proof.
  split; [reflexivity|]. split; [vm_compute; discriminate|].
  destruct (newChat_resets_display_only Part000
              (set_now (sendMessage (set_chatInput init "hello")) 5000))
    as (_ & _ & _ & _ & _ & _ & _ & _ & _ & _ & _ & H).
  apply H; [reflexivity|vm_compute; discriminate].
Defined.

(** ** The download button and the reconciled status *)

(** C4 (counterexample).  After [two_jobs] the last reconciled status is
    'failed' and the download button is visible. *)
Lemma download_shown_after_failed : ~ download_iff_last_completed.
Proof.
  intros C.
  destruct (run Part000 init two_jobs) as [s|] eqn:R;
    [|vm_compute in R; discriminate R].
  assert (Rs : reachable Part000 s) by (now exists two_jobs).
  vm_compute in R. injection R as <-.
  destruct (C _ _ Rs) as [C1 _].
  destruct (C1 eq_refl) as (d & L & D).
  vm_compute in L. injection L as <-. vm_compute in D. discriminate D.
Qed.

(** C4 (amended).  In every reachable state the download button is visible
    exactly when one of the reconciliations that ran since the button was
    last hidden (by a starting submission or by a reset) read 'completed';
    a reconciliation that reads 'failed' or anything else leaves the button
    as it is.  While at most one reconciliation has run since then, this is
    the same as: the last reconciled status is 'completed'.  A starting
    submission and a reset hide the button. *)
Theorem download_iff_completed_since_hidden (v : variant) (es : list event)
    (s : state) :
  run v init es = Some s ->
  downloadOutputBtn s = completed_since_hidden (log s) /\
  ((List.length (reconciled_since_hidden (log s)) <= 1)%nat ->
   (downloadOutputBtn s = true <->
    exists d, last_reconciled (log s) = Some d /\ is_completed d = true)) /\
  (forall p f, downloadOutputBtn (startProcessingFlow p f s) = false) /\
  downloadOutputBtn (newChat s) = false.
Proof.
  intros R.
  assert (Sh : Shown s) by (apply (Shown_run v es init s); [reflexivity|exact R]).
  unfold Shown in Sh. split; [exact Sh|]. split; [|now split].
  intros One. rewrite Sh. unfold completed_since_hidden, last_reconciled.
  destruct (reconciled_since_hidden (log s)) as [|d [|d' l]]; simpl in *.
  - split; [discriminate|]. intros (d & E & _). discriminate E.
  - rewrite orb_false_r. split.
    + intros E. exists d. now split.
    + intros (d0 & E & D). now inversion E; subst.
  - lia.
Qed.

Lemma download_iff_completed_since_hidden_witness :
  exists s,
    run Part000 init two_jobs = Some s /\
    downloadOutputBtn s = completed_since_hidden (log s).
Proof.
  eexists. split; [vm_compute; reflexivity|].
  refine (proj1 (download_iff_completed_since_hidden Part000 two_jobs _ _)).
  vm_compute; reflexivity.
Defined.

(** * More of the script *)

(** ** Theme *)

Lemma applyTheme_consistent (b : bool) (p : Theme.page) :
  Theme.consistent (Theme.applyTheme b p) /\
  Theme.darkClass (Theme.applyTheme b p) = b.
Proof.
  unfold Theme.consistent, Theme.applyTheme.
  destruct b; simpl; (split; [split; [reflexivity|split; [reflexivity|]]|reflexivity]);
    intros src; destruct (Theme.logoSrc p); intros E; inversion E; reflexivity.
Qed.

Lemma clicks_consistent (n : nat) (p0 : Theme.page) :
  Theme.consistent (Theme.clicks n (Theme.onLoad p0)).
Proof. destruct n; [apply applyTheme_consistent|]. apply applyTheme_consistent. Qed.

Lemma clicks_dark (n : nat) (p : Theme.page) :
  Theme.darkClass (Theme.clicks n p) = xorb (Theme.darkClass p) (Nat.odd n).
Proof.
  induction n as [|n IH].
  - simpl. now rewrite xorb_false_r.
  - cbn [Theme.clicks]. unfold Theme.toggle.
    rewrite (proj2 (applyTheme_consistent _ _)), IH, Nat.odd_succ, <- Nat.negb_odd.
    now destruct (Theme.darkClass p), (Nat.odd n).
Qed.

Lemma toggle_twice (p : Theme.page) :
  Theme.consistent p -> Theme.toggle (Theme.toggle p) = p.
Proof.
  destruct p as [d b st lg]. unfold Theme.consistent. simpl.
  intros (Cs & Cb & Cl). subst b st.
  destruct d, lg as [src|]; unfold Theme.toggle, Theme.applyTheme; simpl;
    try rewrite (Cl src eq_refl); reflexivity.
Qed.

(** X1.  After the page has loaded, and after any number of clicks on the
    toggle button, the class of [body], the text of the button, the item in
    [localStorage] and the logo (when the page has one) all say the same
    theme; the page is dark exactly when it loaded dark and the number of
    clicks is even, or loaded light and the number is odd; two more clicks
    give back the very same page. *)
Theorem theme_stays_consistent (p0 : Theme.page) (n : nat) :
  let p := Theme.clicks n (Theme.onLoad p0) in
  Theme.consistent p /\
  Theme.darkClass p = xorb (Theme.isDarkTheme (Theme.stored p0)) (Nat.odd n) /\
  Theme.clicks 2 p = p.
Proof.
  intros p. split; [apply clicks_consistent|]. split.
  - unfold p. rewrite clicks_dark. unfold Theme.onLoad.
    now rewrite (proj2 (applyTheme_consistent _ _)).
  - apply toggle_twice, clicks_consistent.
Qed.

(** X2.  The theme survives a reload: whatever page the last session ended
    with (after its load and any number of clicks), loading a new document
    with the storage it left shows the same theme, consistently. *)
Theorem theme_survives_reload (p0 fresh : Theme.page) (n : nat) :
  let last := Theme.clicks n (Theme.onLoad p0) in
  Theme.darkClass (Theme.reload fresh last) = Theme.darkClass last /\
  Theme.consistent (Theme.reload fresh last).
Proof.
  intros last. split; [|apply applyTheme_consistent].
  destruct (clicks_consistent n p0) as (Cs & _). fold last in Cs.
  unfold Theme.reload, Theme.onLoad.
  rewrite (proj2 (applyTheme_consistent _ _)). cbn [Theme.stored]. rewrite Cs.
  now destruct (Theme.darkClass last).
Qed.

(** ** Line breaks *)

Lemma replaceNewlines_app (a b : string) :
  replaceNewlines (a ++ b) = (replaceNewlines a ++ replaceNewlines b)%string.
Proof.
  induction a as [|c a IH]; [reflexivity|].
  cbn [String.append replaceNewlines]. rewrite IH.
  destruct (is_newline c); reflexivity.
Qed.

Lemma has_newline_app (a b : string) :
  has_newline (a ++ b) = has_newline a || has_newline b.
Proof.
  induction a as [|c a IH]; [reflexivity|].
  cbn [String.append has_newline]. rewrite IH. apply orb_assoc.
Qed.

Lemma replaceNewlines_clean (s : string) : has_newline (replaceNewlines s) = false.
Proof.
  induction s as [|c r IH]; [reflexivity|].
  cbn [replaceNewlines]. destruct (is_newline c) eqn:E.
  - rewrite has_newline_app, IH. reflexivity.
  - cbn [has_newline]. now rewrite E, IH.
Qed.

Lemma replaceNewlines_id (s : string) :
  has_newline s = false -> replaceNewlines s = s.
Proof.
  induction s as [|c r IH]; [reflexivity|].
  cbn [has_newline replaceNewlines]. intros H.
  apply orb_false_iff in H as [E H]. now rewrite E, IH.
Qed.

Lemma replaceNewlinePairs_two (c c' : ascii) (r : string) :
  replaceNewlinePairs (String c (String c' r))
  = if is_newline c && is_newline c'
    then ("<br><br>" ++ replaceNewlinePairs r)%string
    else String c (replaceNewlinePairs (String c' r)).
Proof. reflexivity. Qed.

Lemma replaceNewlinePairs_redundant (s : string) :
  replaceNewlines (replaceNewlinePairs s) = replaceNewlines s /\
  forall c, replaceNewlines (replaceNewlinePairs (String c s))
            = replaceNewlines (String c s).
Proof.
  induction s as [|c' r [IH1 IH2]].
  - split; [reflexivity|]. intros c. reflexivity.
  - split; [apply IH2|]. intros c.
    rewrite replaceNewlinePairs_two.
    destruct (is_newline c && is_newline c') eqn:E.
    + apply andb_true_iff in E as [E1 E2].
      rewrite replaceNewlines_app, IH1.
      cbn [replaceNewlines]. now rewrite E1, E2.
    + cbn [replaceNewlines]. rewrite (IH2 c'). reflexivity.
Qed.

(** X3.  Whatever the earlier replacements of [parseMarkdownToHTML]
    produced, the text it returns holds no line feed: each one has become a
    [<br>].  The replacement of pairs adds nothing to that: the last
    replacement alone gives the same text.  A text without line feeds
    passes unchanged. *)
Theorem lineBreaks_leaves_no_newline (html : string) :
  has_newline (lineBreaks html) = false /\
  lineBreaks html = replaceNewlines html /\
  (has_newline html = false -> lineBreaks html = html).
Proof.
  unfold lineBreaks. rewrite (proj1 (replaceNewlinePairs_redundant html)).
  split; [apply replaceNewlines_clean|]. split; [reflexivity|].
  apply replaceNewlines_id.
Qed.

Lemma lineBreaks_leaves_no_newline_witness :
  has_newline "<li>a</li><br>b" = false /\
  lineBreaks "<li>a</li><br>b" = "<li>a</li><br>b".
Proof.
  split; [reflexivity|].
  refine (proj2 (proj2 (lineBreaks_leaves_no_newline "<li>a</li><br>b")) _).
  reflexivity.
Defined.

(** ** The pace of a job's polls *)

Lemma calm_views job t o :
  calm_obs o = true -> is_poll job (t, o) = false /\ is_post job (t, o) = false.
Proof. destruct o as [? [] ?| | | | | | | |]; simpl; intros Q; try discriminate Q; now split. Qed.

Lemma poll_times_cons job e l :
  poll_times job (e :: l)
  = if is_poll job e then fst e :: poll_times job l else poll_times job l.
Proof. unfold poll_times. simpl. now destruct (is_poll job e). Qed.

Lemma In_tally_pos {A : Type} (p : A -> bool) (l : list A) (x : A) :
  In x l -> p x = true -> tally p l <> O.
Proof.
  intros I P Z. rewrite (tally_zero_In p l x Z I) in P. discriminate.
Qed.

Section PaceLemmas.
Variables (ts : list (timer_id * N)) (cs : list (N * closure)) (l : list (N * obs)).
Hypothesis P : pace_core ts cs l.

Lemma pace_obs t o : calm_obs o = true -> pace_core ts cs ((t, o) :: l).
Proof.
  intros Q job. destruct (P job) as [U F A X T].
  destruct (calm_views job t o Q) as (E1 & E2).
  split; rewrite ?poll_times_cons, ?tally_cons, ?E1, ?E2; cbn [Nat.add]; auto.
Qed.

Lemma pace_timer_add t d : neutral_timer t = true -> pace_core (ts ++ [(t, d)]) cs l.
Proof.
  intros Q job. destruct (P job) as [U F A X T].
  assert (E : is_interval job (t, d) = false) by (destruct t; simpl; auto; discriminate Q).
  split; auto.
  - intros Ln. destruct (U Ln) as [U1 U2]. split; [|exact U2].
    rewrite tally_app, tally_cons, tally_nil, E, U1. reflexivity.
  - intros c L. rewrite tally_app, tally_cons, tally_nil, E, (A c L).
    destruct (Nat.eqb _ _); reflexivity.
  - intros c d' L I. apply in_app_iff in I as [I|[I|[]]]; [eauto|].
    inversion I; subst. discriminate Q.
Qed.

Lemma pace_timer_take t d rest :
  take timer_id_eqb t ts = Some (d, rest) -> neutral_timer t = true ->
  pace_core rest cs l.
Proof.
  intros Tk Q job. destruct (take_split _ _ _ _ _ Tk) as (l1 & t' & l2 & E & -> & Et).
  apply timer_id_eqb_eq in Et; subst t'.
  destruct (P job) as [U F A X T].
  assert (Ei : is_interval job (t, d) = false) by (destruct t; simpl; auto; discriminate Q).
  assert (Tl : tally (is_interval job) (l1 ++ l2) = tally (is_interval job) ts).
  { rewrite E, !tally_app, tally_cons, Ei. reflexivity. }
  split; auto.
  - intros Ln. destruct (U Ln) as [U1 U2]. split; [|exact U2]. now rewrite Tl.
  - intros c L. rewrite Tl. eauto.
  - intros c d' L I. apply (X c d' L). rewrite E.
    apply in_app_iff in I as [I|I]; apply in_app_iff; simpl; auto.
Qed.

Lemma pace_tick_dead job c due rest :
  take timer_id_eqb (CheckStatusInterval job) ts = Some (due, rest) ->
  lookup job cs = Some c -> processingDone c = true ->
  pace_core (filter (fun e => negb (timer_id_eqb (fst e) (CheckStatusInterval job)))
                    (rest ++ [(CheckStatusInterval job, due + 2000)])) cs l.
Proof.
  intros Tk L D. exfalso.
  destruct (take_split _ _ _ _ _ Tk) as (l1 & t' & l2 & E & -> & Et).
  apply timer_id_eqb_eq in Et; subst t'.
  destruct (P job) as [U F A X T].
  pose proof (F c L) as Fc. pose proof (A c L) as Ac. rewrite D in Fc.
  destruct (Nat.eqb (tally (is_post job) l) 0); [discriminate Fc|].
  rewrite E, tally_app, tally_cons in Ac. simpl in Ac.
  rewrite N.eqb_refl in Ac. lia.
Qed.
End PaceLemmas.

Section PaceLifecycle.
Variables (n : N) (ts : list (timer_id * N)) (ps : list (N * kont))
          (cs : list (N * closure)) (k : N) (l : list (N * obs)).
Hypothesis I : inv_core n ts ps cs k l.
Hypothesis P : pace_core ts cs l.

Lemma armed_interval job c :
  lookup job cs = Some c -> tally (is_interval job) ts <> O ->
  tally (is_post job) l = O /\
  exists d, In (CheckStatusInterval job, d) ts /\
            d = submittedAt c + 2000 * (1 + N.of_nat (List.length (poll_times job l))) /\
            n <= d /\ In (FinalizeTimeout job, submittedAt c + 5000) ts /\
            n <= submittedAt c + 5000.
Proof.
  intros L NZ. destruct I as [Hd Hf Hj]. destruct (Hj job) as [JA JR JF JS JQ JD JP].
  destruct (P job) as [U F A X T].
  assert (Z : tally (is_post job) l = O).
  { destruct (tally (is_post job) l) eqn:E; [reflexivity|].
    exfalso. apply NZ, JS. discriminate. }
  split; [exact Z|].
  destruct (tally_pos_In _ _ NZ) as ([t d] & Ii & Pi).
  simpl in Pi. apply timer_id_eqb_eq in Pi; subst t.
  exists d. split; [exact Ii|]. split; [exact (X c d L Ii)|]. split; [eauto|].
  rewrite L, Z in JF.
  assert (NF : tally (is_finalize job) ts <> O) by lia.
  destruct (tally_pos_In _ _ NF) as ([t d'] & If & Pf).
  simpl in Pf. apply timer_id_eqb_eq in Pf; subst t.
  rewrite <- (JD c d' L If). split; [exact If|eauto].
Qed.

Lemma pace_tick_live job c due rest rid req :
  take timer_id_eqb (CheckStatusInterval job) ts = Some (due, rest) ->
  due <= n -> lookup job cs = Some c ->
  pace_core (rest ++ [(CheckStatusInterval job, due + 2000)]) cs
            ((n, Fetch rid (KPoll job) req) :: l).
Proof.
  intros Tk Due L job0.
  destruct (take_split _ _ _ _ _ Tk) as (l1 & t' & l2 & E & -> & Et).
  apply timer_id_eqb_eq in Et; subst t'.
  destruct (P job0) as [U F A X T].
  assert (Tl : tally (is_interval job0) ((l1 ++ l2) ++ [(CheckStatusInterval job, due + 2000)])
               = tally (is_interval job0) ts).
  { rewrite E, !tally_app, !tally_cons, tally_nil. simpl. destruct (job =? job0); lia. }
  assert (Sub : forall x, In x (l1 ++ l2) -> In x ts).
  { intros x Ix. rewrite E. rewrite in_app_iff in *. simpl. tauto. }
  destruct (N.eqb_spec job job0) as [<-|Ne].
  - assert (NZ : tally (is_interval job) ts <> O).
    { rewrite E, tally_app, tally_cons. simpl. rewrite N.eqb_refl. lia. }
    destruct (armed_interval job c L NZ) as (Z & d & Id & Ed & Nd & _ & Nf).
    assert (One : tally (is_interval job) ts = 1%nat) by (rewrite (A c L), Z; reflexivity).
    assert (Zr : tally (is_interval job) (l1 ++ l2) = O).
    { rewrite E, !tally_app, tally_cons in One. simpl in One.
      rewrite N.eqb_refl in One. rewrite tally_app. lia. }
    assert (Ed' : due = submittedAt c
                        + 2000 * (1 + N.of_nat (List.length (poll_times job l)))).
    { apply (X c due L). rewrite E, in_app_iff. simpl. auto. }
    assert (Hn : n = due).
    { destruct I as [Hd _ _]. assert (n <= due); [|lia].
      apply (Hd (CheckStatusInterval job)). rewrite E, in_app_iff. simpl. auto. }
    assert (Ep : is_poll job (n, Fetch rid (KPoll job) req) = true)
      by (simpl; apply N.eqb_refl).
    assert (Eq : is_post job (n, Fetch rid (KPoll job) req) = false) by reflexivity.
    split.
    + intros Ln. rewrite L in Ln. discriminate.
    + intros c0 L0. rewrite tally_cons, Eq. eauto.
    + intros c0 L0. rewrite Tl, tally_cons, Eq. eauto.
    + intros c0 d0 L0 I0. rewrite L in L0. inversion L0; subst c0.
      rewrite poll_times_cons, Ep. cbn [List.length]. rewrite Nat2N.inj_succ.
      apply in_app_iff in I0 as [I0|[I0|[]]].
      * pose proof (tally_zero_In _ _ _ Zr I0) as Bad. simpl in Bad.
        rewrite N.eqb_refl in Bad. discriminate.
      * inversion I0; subst d0. rewrite Ed'. lia.
    + intros c0 L0. rewrite L in L0. inversion L0; subst c0.
      rewrite poll_times_cons, Ep, tally_cons, Eq.
      unfold poll_schedule. rewrite Z. cbn [fst Nat.add].
      destruct (T c L) as [[Tm _]|[[Tm _]|Tm]]; rewrite Tm in *;
        cbn [List.length] in Ed', Ed.
      * right. left. split; [|reflexivity]. f_equal. lia.
      * right. right. f_equal. lia.
      * exfalso. lia.
  - assert (Ep : is_poll job0 (n, Fetch rid (KPoll job) req) = false)
      by (simpl; now apply N.eqb_neq).
    split.
    + intros Ln. destruct (U Ln) as [U1 U2]. rewrite Tl, poll_times_cons, Ep. now split.
    + intros c0 L0. rewrite tally_cons. simpl. eauto.
    + intros c0 L0. rewrite Tl, tally_cons. simpl. eauto.
    + intros c0 d0 L0 I0. rewrite poll_times_cons, Ep. apply (X c0 d0 L0).
      apply in_app_iff in I0 as [I0|[I0|[]]]; [auto|].
      inversion I0; subst. contradiction.
    + intros c0 L0. rewrite poll_times_cons, Ep, tally_cons. simpl. eauto.
Qed.

Lemma pace_finalize job c due rest rid req f :
  take timer_id_eqb (FinalizeTimeout job) ts = Some (due, rest) ->
  due <= n -> lookup job cs = Some c ->
  (forall x, processingDone (f x) = true /\ submittedAt (f x) = submittedAt x) ->
  pace_core (filter (fun e => negb (timer_id_eqb (fst e) (CheckStatusInterval job))) rest)
            (update job f cs) ((n, Fetch rid (KSubmit job) req) :: l).
Proof.
  intros Tk Due L Hfld job0.
  destruct (take_split _ _ _ _ _ Tk) as (l1 & t' & l2 & E & -> & Et).
  apply timer_id_eqb_eq in Et; subst t'.
  destruct (P job0) as [U F A X T].
  assert (Sub : forall x, In x (l1 ++ l2) -> In x ts).
  { intros x Ix. rewrite E. rewrite in_app_iff in *. simpl. tauto. }
  assert (Ep : is_poll job0 (n, Fetch rid (KSubmit job) req) = false) by reflexivity.
  destruct (N.eqb_spec job job0) as [<-|Ne].
  - assert (Iin : In (FinalizeTimeout job, due) ts) by (rewrite E, in_app_iff; simpl; auto).
    destruct I as [Hd Hf Hj]. destruct (Hj job) as [JA JR JF JS JQ JD JP].
    assert (Hn : n = submittedAt c + 5000).
    { pose proof (Hd _ _ Iin). pose proof (JD c due L Iin). lia. }
    assert (Z : tally (is_post job) l = O).
    { rewrite L in JF. pose proof (In_tally_pos (is_finalize job) ts _ Iin) as Q.
      simpl in Q. rewrite N.eqb_refl in Q. specialize (Q eq_refl). lia. }
    assert (NZ : tally (is_interval job) ts <> O) by (rewrite (A c L), Z; discriminate).
    destruct (armed_interval job c L NZ) as (_ & d & Id & Ed & Nd & _).
    split.
    + rewrite lookup_update, N.eqb_refl, L. discriminate.
    + intros c0. rewrite lookup_update, N.eqb_refl, L. simpl.
      intros X0; injection X0 as <-. rewrite tally_cons. simpl. rewrite N.eqb_refl.
      apply Hfld.
    + intros c0 _. rewrite tally_cons. simpl. rewrite N.eqb_refl. simpl.
      apply tally_filter_none. intros [t0 d0] Ei. simpl in *. now rewrite Ei.
    + intros c0 d0 _ I0. apply filter_In in I0 as [_ I0]. simpl in I0.
      rewrite N.eqb_refl in I0. discriminate.
    + intros c0. rewrite lookup_update, N.eqb_refl, L. simpl.
      intros X0; injection X0 as <-. rewrite (proj2 (Hfld c)).
      rewrite poll_times_cons, Ep. unfold poll_schedule.
      destruct (T c L) as [[Tm _]|[[Tm _]|Tm]]; rewrite Tm in *;
        cbn [List.length] in Ed.
      * exfalso. lia.
      * exfalso. lia.
      * right. right. reflexivity.
  - assert (Lk : lookup job0 (update job f cs) = lookup job0 cs).
    { rewrite lookup_update. destruct (N.eqb_spec job0 job); [congruence|reflexivity]. }
    assert (Epost : is_post job0 (n, Fetch rid (KSubmit job) req) = false)
      by (simpl; now apply N.eqb_neq).
    assert (Tl : tally (is_interval job0)
                   (filter (fun e => negb (timer_id_eqb (fst e) (CheckStatusInterval job)))
                           (l1 ++ l2))
                 = tally (is_interval job0) ts).
    { rewrite tally_filter_same.
      - rewrite E, !tally_app, tally_cons. reflexivity.
      - intros [t0 d0] _ Ei. simpl in *. apply timer_id_eqb_eq in Ei; subst t0.
        simpl. apply negb_true_iff, N.eqb_neq. congruence. }
    split; rewrite ?Lk, ?Tl, ?poll_times_cons, ?Ep, ?tally_cons, ?Epost; cbn [Nat.add]; auto.
    intros c0 d0 L0 I0. apply filter_In in I0 as [I0 _]. eauto.
Qed.

Lemma pace_start job c :
  k <= job -> processingDone c = false -> submittedAt c = n ->
  pace_core ((ts ++ [(CheckStatusInterval job, n + 2000)])
               ++ [(FinalizeTimeout job, n + 5000)])
            ((job, c) :: cs) l.
Proof.
  intros Hk D Sb job0. destruct I as [Hd Hf Hj].
  assert (Lnone : lookup job cs = None).
  { destruct (lookup job cs) eqn:L; [|reflexivity]. specialize (Hf _ _ L). lia. }
  destruct (P job0) as [U F A X T].
  destruct (N.eqb_spec job job0) as [<-|Ne].
  - assert (Lk : lookup job ((job, c) :: cs) = Some c) by (simpl; now rewrite N.eqb_refl).
    assert (Tl : tally (is_interval job)
                   ((ts ++ [(CheckStatusInterval job, n + 2000)])
                      ++ [(FinalizeTimeout job, n + 5000)])
                 = S (tally (is_interval job) ts)).
    { rewrite !tally_app, !tally_cons, tally_nil. simpl. rewrite N.eqb_refl. lia. }
    destruct (U Lnone) as [U1 U2].
    destruct (Hj job) as [_ _ JF _ _ _ _]. rewrite Lnone in JF.
    assert (Z : tally (is_post job) l = O) by lia.
    split; rewrite Lk.
    + discriminate.
    + intros c0 X0; injection X0 as <-. now rewrite Z.
    + intros c0 _. rewrite Tl, U1, Z. reflexivity.
    + intros c0 d0 X0 I0; injection X0 as <-. rewrite U2. cbn [List.length N.of_nat].
      rewrite !in_app_iff in I0. destruct I0 as [[I0|[I0|[]]]|[I0|[]]].
      * pose proof (tally_zero_In _ _ _ U1 I0) as Bad. simpl in Bad.
        rewrite N.eqb_refl in Bad. discriminate.
      * inversion I0; subst. lia.
      * discriminate I0.
    + intros c0 X0; injection X0 as <-. left. now split.
  - assert (Lk : lookup job0 ((job, c) :: cs) = lookup job0 cs).
    { simpl. destruct (N.eqb_spec job job0); [contradiction|reflexivity]. }
    assert (Tl : tally (is_interval job0)
                   ((ts ++ [(CheckStatusInterval job, n + 2000)])
                      ++ [(FinalizeTimeout job, n + 5000)])
                 = tally (is_interval job0) ts).
    { rewrite !tally_app, !tally_cons, tally_nil. simpl.
      rewrite (proj2 (N.eqb_neq _ _) Ne). lia. }
    split; rewrite ?Lk, ?Tl; auto.
    intros c0 d0 L0 I0. apply (X c0 d0 L0).
    rewrite !in_app_iff in I0. destruct I0 as [[I0|[I0|[]]]|[I0|[]]]; auto.
    + inversion I0; subst. contradiction.
    + discriminate I0.
Qed.
End PaceLifecycle.

Ltac pace_auto :=
  repeat first
    [ assumption
    | apply pace_obs; [|reflexivity]
    | apply pace_timer_add; [|reflexivity] ].

Lemma Pace_init : Pace init.
Proof.
  intros job. split; simpl; try discriminate; auto.
Qed.

Lemma Pace_startProcessingFlow p f s :
  Inv s -> Pace s -> Pace (startProcessingFlow p f s).
Proof.
  unfold Inv, Pace. intros I P. cbn. pace_auto.
  apply (pace_start _ _ _ _ _ _ I P); first [lia|reflexivity].
Qed.

Lemma Pace_fire v t s s' : Inv s -> Pace s -> fire v t s = Some s' -> Pace s'.
Proof.
  unfold Inv, Pace, fire. intros I P F.
  destruct (take timer_id_eqb t (timers s)) as [[due rest]|] eqn:T; [|discriminate].
  destruct (due <=? now s) eqn:D; [|discriminate]. apply N.leb_le in D.
  destruct t as [job|job|m|m].
  - unfold checkStatus_tick in F. cbn in F.
    destruct (lookup job (closures s)) as [c|] eqn:L; [|discriminate].
    destruct (processingDone c) eqn:PD; inversion F; subst s'; cbn.
    + apply (pace_tick_dead _ _ _ P job c due rest T L PD).
    + apply (pace_tick_live _ _ _ _ _ _ I P job c due rest _ _ T D L).
  - unfold finalize_timeout in F. cbn in F.
    destruct (lookup job (closures s)) as [c|] eqn:L; [|discriminate].
    inversion F; subst s'; cbn.
    apply (pace_finalize _ _ _ _ _ _ I P job c due rest _ _ _ T D L). now split.
  - inversion F; subst s'. pose proof (pace_timer_take _ _ _ P _ _ _ T eq_refl) as R.
    destruct v; cbn; pace_auto.
  - inversion F; subst s'. pose proof (pace_timer_take _ _ _ P _ _ _ T eq_refl) as R.
    cbn; pace_auto.
Qed.

Lemma Pace_deliver v rid r s s' : Pace s -> deliver v rid r s = Some s' -> Pace s'.
Proof.
  unfold Pace, deliver. intros P F.
  destruct (take N.eqb rid (pending s)) as [[k rest]|] eqn:T; [|discriminate].
  destruct k as [job|job|job| |]; destruct r as [x|x|x]; try discriminate F;
    cbn in F; inversion F; subst s'; clear F.
  - destruct x as [|d]; cbn; [pace_auto|].
    unfold checkStatus_resume. split_ifs; cbn; pace_auto.
  - unfold finalize_afterSubmit, simulateAIResponse_resume.
    destruct x as [|[] [|[t|]]]; destruct v; cbn; pace_auto.
  - destruct x as [|d]; cbn; [pace_auto|].
    unfold finalize_resume. split_ifs; cbn; pace_auto.
  - destruct x as [|d]; cbn; [pace_auto|].
    unfold download_afterStatus. split_ifs; cbn; pace_auto.
  - destruct x as [|[]]; cbn; pace_auto.
Qed.

Lemma Pace_step v s e s' : Inv s -> Pace s -> step v s e = Some s' -> Pace s'.
Proof.
  intros I P F. destruct e as [dt|t|rid r|text| | | |f|rd b|rd]; simpl in F.
  - unfold advance in F. destruct (forallb _ _); inversion F; subst s'. exact P.
  - eapply Pace_fire; eauto.
  - eapply Pace_deliver; eauto.
  - inversion F; subst s'. exact P.
  - inversion F; subst s'. unfold sendMessage.
    destruct (Str.isEmpty _); [exact P|].
    apply Pace_startProcessingFlow.
    + apply (Inv_appendChild (Plain User (MText (Str.trim (chatInput s))))
               (set_welcomeDisplay s false)) in I. exact I.
    + unfold Pace in *. cbn. pace_auto.
  - inversion F; subst s'. unfold Pace in *. cbn. pace_auto.
  - inversion F; subst s'. unfold Pace in *. cbn. pace_auto.
  - inversion F; subst s'. unfold handleFileSelection.
    destruct f as [f|]; [|exact P].
    destruct v; split_ifs; unfold Pace in *; cbn; pace_auto.
  - destruct (take N.eqb rd (readers s)) as [[f rest]|]; inversion F; subst s'.
    unfold reader_onload. apply Pace_startProcessingFlow.
    + apply (Inv_appendChild (Plain User (MUpload (name f) (size f)))
               (set_readers s rest)). exact I.
    + unfold Pace in *. cbn. pace_auto.
  - destruct (take N.eqb rd (readers s)) as [[f rest]|]; inversion F; subst s'.
    destruct v; unfold Pace in *; cbn; pace_auto.
Qed.

Lemma Pace_run v es : forall s s', Inv s -> Pace s -> run v s es = Some s' -> Pace s'.
Proof.
  induction es as [|e es IH]; simpl; intros s s' I P R.
  - inversion R; subst; exact P.
  - destruct (step v s e) as [s1|] eqn:E; [|discriminate].
    apply (IH s1); [eapply Inv_step; eauto|eapply Pace_step; eauto|exact R].
Qed.

Lemma Pace_reachable v es s : run v init es = Some s -> Inv s /\ Pace s.
Proof.
  intros R. split.
  - apply (Inv_reachable v). now exists es.
  - apply (Pace_run v es init); [apply Inv_init|apply Pace_init|exact R].
Qed.

(** X4.  With every timer run at its due time, each job polls
    check_status at most twice: the polls leave two and four seconds after
    the submission, in that order, and nowhere else.  Both have left once
    the job's POST has left, and as soon as the clock has passed the four
    seconds. *)
Theorem polls_at_two_and_four_seconds (v : variant) (es : list event) (s : state)
    (job : N) (c : closure) :
  run v init es = Some s ->
  lookup job (closures s) = Some c ->
  let both := [submittedAt c + 4000; submittedAt c + 2000] in
  (poll_times job (log s) = [] \/
   poll_times job (log s) = [submittedAt c + 2000] \/
   poll_times job (log s) = both) /\
  (posts job (log s) <> [] -> poll_times job (log s) = both) /\
  (submittedAt c + 4000 < now s -> poll_times job (log s) = both).
Proof.
  intros R L both. destruct (Pace_reachable v es s R) as [I P].
  destruct (P job) as [U F A X T].
  pose proof (T c L) as Tc. pose proof (A c L) as Ac.
  split; [|split].
  - destruct Tc as [[Tm _]|[[Tm _]|Tm]]; auto.
  - intros NP. destruct Tc as [[_ Z]|[[_ Z]|Tm]]; auto;
      exfalso; apply NP; unfold posts; unfold tally in Z;
      now apply length_zero_iff_nil.
  - intros Late.
    destruct (Nat.eqb (tally (is_post job) (log s)) 0) eqn:Z.
    + assert (NZ : tally (is_interval job) (timers s) <> O) by (rewrite Ac; discriminate).
      destruct (armed_interval _ _ _ _ _ _ I P job c L NZ) as (_ & d & _ & Ed & Nd & _).
      destruct Tc as [[Tm _]|[[Tm _]|Tm]]; auto; rewrite Tm in Ed;
        cbn [List.length] in Ed; exfalso; lia.
    + apply Nat.eqb_neq in Z.
      destruct Tc as [[_ Z']|[[_ Z']|Tm]]; auto; contradiction.
Qed.

Lemma polls_at_two_and_four_seconds_witness :
  exists s c,
    run Part000 init two_submissions_answered = Some s /\
    lookup 3 (closures s) = Some c /\
    submittedAt c + 4000 < now s /\
    poll_times 3 (log s) = [submittedAt c + 4000; submittedAt c + 2000].
Proof.
  eexists. eexists.
  split; [vm_compute; reflexivity|].
  split; [vm_compute; reflexivity|].
  split; [vm_compute; reflexivity|].
  eapply (polls_at_two_and_four_seconds Part000 two_submissions_answered _ 3 _).
  - vm_compute; reflexivity.
  - vm_compute; reflexivity.
  - vm_compute; reflexivity.
Defined.

(** X5.  The test of [processingDone] at the start of the interval
    callback never succeeds: whenever a job's interval timer fires, in any
    run, the callback issues its check_status fetch and the interval stays
    armed for two seconds later. *)
Theorem poll_tick_always_fetches (v : variant) (es : list event) (s s' : state)
    (job : N) :
  run v init es = Some s ->
  step v s (Fire (CheckStatusInterval job)) = Some s' ->
  log s' = (now s, Fetch (next_id s) (KPoll job) CheckStatus) :: log s /\
  In (CheckStatusInterval job, now s + 2000) (timers s') /\
  exists c, lookup job (closures s) = Some c /\ processingDone c = false.
Proof.
  intros R F. destruct (Pace_reachable v es s R) as [I P].
  cbn [step] in F. unfold fire in F.
  destruct (take timer_id_eqb (CheckStatusInterval job) (timers s))
    as [[due rest]|] eqn:T; [|discriminate].
  destruct (due <=? now s) eqn:D; [|discriminate]. apply N.leb_le in D.
  unfold checkStatus_tick in F. cbn [closures set_timers] in F.
  destruct (lookup job (closures s)) as [c|] eqn:L; [|discriminate].
  destruct (take_split _ _ _ _ _ T) as (l1 & t' & l2 & E & -> & Et).
  apply timer_id_eqb_eq in Et; subst t'.
  assert (Iin : In (CheckStatusInterval job, due) (timers s))
    by (rewrite E, in_app_iff; simpl; auto).
  assert (NZ : tally (is_interval job) (timers s) <> O).
  { apply (In_tally_pos _ _ _ Iin). simpl. apply N.eqb_refl. }
  destruct (armed_interval _ _ _ _ _ _ I P job c L NZ) as (Z & _).
  destruct (P job) as [_ Fl _ _ _]. pose proof (Fl c L) as Fc. rewrite Z in Fc.
  simpl in Fc. rewrite Fc in F. inversion F; subst s'. cbn.
  assert (Hn : now s = due).
  { destruct I as [Hd _ _]. pose proof (Hd _ _ Iin). lia. }
  split; [reflexivity|]. split.
  - rewrite Hn, in_app_iff. simpl. auto.
  - exists c. now split.
Qed.

Lemma poll_tick_always_fetches_witness :
  exists s s',
    run Part000 init [Typed "hello"; ClickSend; Advance 2000] = Some s /\
    step Part000 s (Fire (CheckStatusInterval 2)) = Some s' /\
    log s' = (now s, Fetch (next_id s) (KPoll 2) CheckStatus) :: log s.
Proof.
  eexists. eexists.
  split; [vm_compute; reflexivity|].
  split; [vm_compute; reflexivity|].
  eapply (poll_tick_always_fetches Part000 [Typed "hello"; ClickSend; Advance 2000]).
  - vm_compute; reflexivity.
  - vm_compute; reflexivity.
Defined.

(** ** One step of the event loop, case by case *)

(** Splits [F : step v s e = Some s'] into the segments of the script that
    [e] can run, with [s'] replaced by what the segment returns. *)
Ltac leaves v s F :=
  let dt := fresh "dt" in let t := fresh "t" in let rid := fresh "rid" in
  let r := fresh "r" in let text := fresh "text" in let f := fresh "f" in
  let rd := fresh "rd" in let b := fresh "b" in let due := fresh "due" in
  let rest := fresh "rest" in let job := fresh "job" in let m := fresh "m" in
  let c := fresh "c" in let k := fresh "k" in let x := fresh "x" in
  let d := fresh "d" in let tx := fresh "tx" in
  let Tk := fresh "Tk" in let Due := fresh "Due" in let Lk := fresh "Lk" in
  let Adv := fresh "Adv" in let Done := fresh "Done" in
  match type of F with
  | step _ _ ?e = Some _ =>
      destruct e as [dt|t|rid r|text| | | |f|rd b|rd]; cbn [step] in F
  end;
  [ unfold advance in F; destruct (forallb _ _) eqn:Adv; [|discriminate F];
    injection F as <-
  | unfold fire in F;
    destruct (take timer_id_eqb t (timers s)) as [[due rest]|] eqn:Tk; [|discriminate F];
    destruct (due <=? now s) eqn:Due; [|discriminate F];
    destruct t as [job|job|m|m];
    [ unfold checkStatus_tick in F; cbn [closures set_timers] in F;
      destruct (lookup job (closures s)) as [c|] eqn:Lk; [|discriminate F];
      destruct (processingDone c) eqn:Done; injection F as <-
    | unfold finalize_timeout in F; cbn [closures set_timers] in F;
      destruct (lookup job (closures s)) as [c|] eqn:Lk; [|discriminate F];
      injection F as <-
    | injection F as <-; unfold downloaded_timeout; destruct v
    | injection F as <- ]
  | unfold deliver in F;
    destruct (take N.eqb rid (pending s)) as [[k rest]|] eqn:Tk; [|discriminate F];
    destruct k as [job|job|job| |]; destruct r as [x|x|x]; try discriminate F;
    cbn [resume] in F; injection F as <-;
    [ unfold checkStatus_resume; destruct x as [|d];
      [|destruct (status_is d "completed"); [|destruct (status_is d "failed");
          [|destruct (status_is d "processing")]]]
    | unfold finalize_afterSubmit, simulateAIResponse_resume;
      destruct x as [|[] [|[tx|]]]; destruct v
    | unfold finalize_resume; destruct x as [|d];
      [|destruct (status_is d "completed") eqn:?; [|destruct (status_is d "failed") eqn:?]]
    | unfold download_afterStatus; destruct x as [|d];
      [|destruct (status_is d "processing"); [|destruct (status_is d "failed")]]
    | unfold download_afterProbe; destruct x as [|[]] ]
  | injection F as <-
  | injection F as <-; unfold sendMessage;
    destruct (Str.isEmpty (Str.trim (chatInput s))) eqn:?
  | injection F as <-
  | injection F as <-
  | injection F as <-; unfold handleFileSelection; destruct f as [f|];
    [destruct v;
     [ destruct (5 * 1024 * 1024 <? size f) eqn:?
     | destruct (Str.includes allowedExtensions (fileExtension f)) eqn:?;
       [destruct (5 * 1024 * 1024 <? size f) eqn:?|] ]|]
  | destruct (take N.eqb rd (readers s)) as [[f rest]|] eqn:Tk; [|discriminate F];
    injection F as <-
  | destruct (take N.eqb rd (readers s)) as [[f rest]|] eqn:Tk; [|discriminate F];
    injection F as <-; unfold reader_onerror; destruct v ].

(** ** Every answer to the POST gets its message *)


(** ** The welcome message *)

Lemma lookup_cons_inv {V : Type} (k k' : N) (x y : V) (l : list (N * V)) :
  lookup k ((k', x) :: l) = Some y -> (k' = k /\ y = x) \/ lookup k l = Some y.
Proof.
  simpl. destruct (N.eqb_spec k' k); intros E; [left|right; exact E].
  split; [assumption|congruence].
Qed.

Lemma lookup_update_inv {V : Type} (k k' : N) (f : V -> V) (y : V) (l : list (N * V)) :
  lookup k (update k' f l) = Some y ->
  (k = k' /\ exists x, lookup k l = Some x /\ y = f x) \/ (k <> k' /\ lookup k l = Some y).
Proof.
  rewrite lookup_update. destruct (N.eqb_spec k k') as [->|Ne].
  - destruct (lookup k' l) as [x|]; [|discriminate]. simpl. intros E.
    left. split; [reflexivity|]. exists x. split; [reflexivity|congruence].
  - intros E. right. now split.
Qed.

Ltac welcomed_closures H2 :=
  first
    [ exact H2
    | let E := fresh "E" in let X := fresh "X" in
      intros ? ? E; apply lookup_cons_inv in E as [[_ ->]|E]; [cbn; lia|exact (H2 _ _ E)]
    | let E := fresh "E" in let X := fresh "X" in
      intros ? ? E; apply lookup_update_inv in E as [(_ & ? & X & ->)|[_ E]];
      [exact (H2 _ _ X)|exact (H2 _ _ E)] ].

Lemma Welcomed_step v s e s' : Welcomed s -> step v s e = Some s' -> Welcomed s'.
Proof.
  unfold Welcomed. intros (H1 & H2 & [rest0 H3] & H4) F.
  leaves v s F; cbn; rewrite ?H3; cbn;
    try (solve [refine (conj _ (conj _ (conj (ex_intro _ _ eq_refl) _)));
                [lia|welcomed_closures H2|first [exact H4|reflexivity]]]).
  match goal with L : lookup _ (closures s) = Some ?c |- _ =>
    destruct (H2 _ _ L) as [P1 P2];
    destruct (initialResponseElement c) eqn:E1; [lia|];
    destruct (typingIndicator c) eqn:E2; [lia|]
  end.
  cbn. refine (conj _ (conj _ (conj (ex_intro _ _ eq_refl) H4))); [lia|].
  welcomed_closures H2.
Qed.

Lemma Welcomed_run v es : forall s s', Welcomed s -> run v s es = Some s' -> Welcomed s'.
Proof.
  induction es as [|e es IH]; simpl; intros s s' H R.
  - inversion R; subst; exact H.
  - destruct (step v s e) as [s1|] eqn:E; [|discriminate].
    eapply IH; [|exact R]. eapply Welcomed_step; eauto.
Qed.

(** X6.  On a page that loads with the welcome message shown as the first
    child of the chat ([init]), the welcome message is never taken out of
    the chat: it is always its first child, hidden or shown.  It is shown
    exactly when no text prompt has been sent since the page was loaded or
    last reset; sending a file does not hide it. *)
Theorem welcome_shown_until_prompt (v : variant) (es : list event) (s : state) :
  run v init es = Some s ->
  (exists rest, chatWindow s = welcomeMessage :: rest) /\
  welcomeDisplay s = negb (prompt_sent_since_reset (log s)) /\
  (forall f base64Data,
     welcomeDisplay (reader_onload f base64Data s) = welcomeDisplay s).
Proof.
  intros R.
  assert (W : Welcomed s).
  { apply (Welcomed_run v es init); [|exact R].
    repeat split; try reflexivity; try discriminate. now exists []. }
  destruct W as (_ & _ & W3 & W4). now repeat split.
Qed.

Lemma welcome_shown_until_prompt_witness :
  exists s,
    run ScriptJs init pdf_upload = Some s /\
    welcomeDisplay s = negb (prompt_sent_since_reset (log s)) /\
    welcomeDisplay s = true.
Proof.
  eexists. split; [vm_compute; reflexivity|]. split; [|vm_compute; reflexivity].
  refine (proj1 (proj2 (welcome_shown_until_prompt ScriptJs pdf_upload _ _))).
  vm_compute; reflexivity.
Defined.

(** ** Placeholders and typing indicators *)

Lemma waiting_cons sel cs e job c :
  lookup job cs = None -> waiting sel cs e -> waiting sel ((job, c) :: cs) e.
Proof.
  intros Ln (j & c0 & L & D & E). exists j, c0. split; [|now split].
  simpl. destruct (N.eqb_spec job j) as [->|_]; [congruence|exact L].
Qed.

Lemma waiting_update sel cs e job c f :
  lookup job cs = Some c -> sel c <> el_id e ->
  waiting sel cs e -> waiting sel (update job f cs) e.
Proof.
  intros Lc Ne (j & c0 & L & D & E). exists j, c0. split; [|now split].
  rewrite lookup_update. destruct (N.eqb_spec j job) as [->|_]; [|exact L].
  rewrite Lc in L. injection L as <-. contradiction.
Qed.

Section WaitingLemmas.
Variables (cs : list (N * closure)) (cw : list element).
Hypothesis W : Waiting cs cw.

Lemma waiting_append x :
  is_placeholder x = false -> is_typing x = false -> Waiting cs (cw ++ [x]).
Proof.
  intros P T e I. apply in_app_iff in I as [I|[<-|[]]]; [auto|].
  rewrite P, T. split; discriminate.
Qed.

Lemma waiting_start job c k1 k2 :
  lookup job cs = None -> processingDone c = false ->
  initialResponseElement c = k1 -> typingIndicator c = k2 ->
  Waiting ((job, c) :: cs)
    ((cw ++ [{| el_id := k1; el_body := Plain Ai MPlaceholder |}])
       ++ [{| el_id := k2; el_body := TypingDots |}]).
Proof.
  intros Ln D E1 E2 e I.
  assert (Lj : lookup job ((job, c) :: cs) = Some c) by (simpl; now rewrite N.eqb_refl).
  rewrite !in_app_iff in I. destruct I as [[I|[<-|[]]]|[<-|[]]].
  - destruct (W e I) as [Wp Wt]. split; intros Q; apply waiting_cons; auto.
  - split; [|discriminate]. intros _. exists job, c. auto.
  - split; [discriminate|]. intros _. exists job, c. auto.
Qed.

Lemma waiting_finalize job c f :
  lookup job cs = Some c ->
  Waiting (update job f cs)
    (filter (fun e => negb (el_id e =? typingIndicator c))
       (filter (fun e => negb (el_id e =? initialResponseElement c)) cw)).
Proof.
  intros L e I. apply filter_In in I as [I Nt]. apply filter_In in I as [I Ni].
  apply negb_true_iff, N.eqb_neq in Nt, Ni.
  destruct (W e I) as [Wp Wt].
  split; intros Q; apply (waiting_update _ _ _ job c f L); auto.
Qed.
End WaitingLemmas.

Lemma Waiting_reset cs : Waiting cs [welcomeMessage].
Proof. intros e [<-|[]]. split; discriminate. Qed.

Lemma fresh_job s j : Inv s -> next_id s <= j -> lookup j (closures s) = None.
Proof.
  intros [_ Hf _] Le. destruct (lookup j (closures s)) eqn:L; [|reflexivity].
  specialize (Hf _ _ L). lia.
Qed.

Lemma Awaited_step v s e s' : Inv s -> Awaited s -> step v s e = Some s' -> Awaited s'.
Proof.
  unfold Awaited. intros I H F.
  leaves v s F; cbn;
    try exact H;
    try (solve [apply waiting_append; [exact H|reflexivity|reflexivity]]);
    try apply Waiting_reset.
  - apply waiting_finalize; assumption.
  - apply waiting_start; try reflexivity.
    + apply waiting_append; [exact H|reflexivity|reflexivity].
    + apply (fresh_job s); [exact I|lia].
  - apply waiting_start; try reflexivity.
    + apply waiting_append; [exact H|reflexivity|reflexivity].
    + apply (fresh_job s); [exact I|lia].
Qed.

Lemma Awaited_run v es :
  forall s s', Inv s -> Awaited s -> run v s es = Some s' -> Awaited s'.
Proof.
  induction es as [|e es IH]; simpl; intros s s' I H R.
  - inversion R; subst; exact H.
  - destruct (step v s e) as [s1|] eqn:E; [|discriminate].
    apply (IH s1); [eapply Inv_step; eauto|eapply Awaited_step; eauto|exact R].
Qed.

Lemma Awaited_init : Awaited init.
Proof. intros e [<-|[]]. split; discriminate. Qed.

(** X7.  Every placeholder message and every typing indicator that is in
    the chat belongs to a job whose finalize callback has not run yet: the
    callback removes both, and nothing else creates them.  So once every
    job has been finalized the chat holds neither. *)
Theorem placeholders_belong_to_unfinished_jobs (v : variant) (es : list event) (s : state) :
  run v init es = Some s ->
  (forall e, In e (chatWindow s) ->
     (is_placeholder e = true -> waiting initialResponseElement (closures s) e) /\
     (is_typing e = true -> waiting typingIndicator (closures s) e)) /\
  ((forall job c, lookup job (closures s) = Some c -> processingDone c = true) ->
   forall e, In e (chatWindow s) -> is_placeholder e = false /\ is_typing e = false).
Proof.
  intros R.
  assert (W : Awaited s) by (apply (Awaited_run v es init); auto using Inv_init, Awaited_init).
  split; [exact W|]. intros D e I. destruct (W e I) as [Wp Wt].
  split.
  - destruct (is_placeholder e); [|reflexivity].
    destruct (Wp eq_refl) as (j & c & L & F & _). rewrite (D _ _ L) in F. discriminate.
  - destruct (is_typing e); [|reflexivity].
    destruct (Wt eq_refl) as (j & c & L & F & _). rewrite (D _ _ L) in F. discriminate.
Qed.

Lemma placeholders_belong_to_unfinished_jobs_witness :
  exists s,
    run ScriptJs init two_submissions = Some s /\
    In {| el_id := 8; el_body := Plain Ai MPlaceholder |} (chatWindow s) /\
    waiting initialResponseElement (closures s)
      {| el_id := 8; el_body := Plain Ai MPlaceholder |}.
Proof.
  eexists. split; [vm_compute; reflexivity|].
  split; [vm_compute; tauto|].
  refine (proj1 (proj1 (placeholders_belong_to_unfinished_jobs
                          ScriptJs two_submissions _ _) _ _) _).
  - vm_compute; reflexivity.
  - vm_compute; tauto.
  - reflexivity.
Defined.

(** ** Every answer to the POST gets its message *)




(** ** What is sent to the backend *)

Lemma payload_prompt (text : string) :
  Str.isEmpty (Str.trim text) = false -> payload_ok (Some (Str.trim text)) None.
Proof.
  intros E. split; [reflexivity|]. split; [apply trim_idem|].
  split; [apply trim_no_space_at_ends|].
  intros Z. rewrite Z in E. discriminate.
Qed.

Ltac payload_closures H1 :=
  first
    [ exact H1
    | let E := fresh "E" in
      intros ? ? E; apply lookup_cons_inv in E as [[_ ->]|E];
      [first [exact I|now apply payload_prompt]|exact (H1 _ _ E)]
    | let E := fresh "E" in let X := fresh "X" in
      intros ? ? E; apply lookup_update_inv in E as [(_ & ? & X & ->)|[_ E]];
      [exact (H1 _ _ X)|exact (H1 _ _ E)] ].

Ltac payload_log H1 H2 :=
  let I0 := fresh "I" in
  intros ? ? ? ? ? I0; cbn [In] in I0;
  repeat (destruct I0 as [I0|I0]; [try discriminate I0|]);
  first
    [ exact (H2 _ _ _ _ _ I0)
    | injection I0 as _ _ _ <- <-;
      match goal with L : lookup _ _ = Some _ |- _ => exact (H1 _ _ L) end ].

Lemma Payloads_step v s e s' : Payloads s -> step v s e = Some s' -> Payloads s'.
Proof.
  unfold Payloads. intros [H1 H2] F.
  leaves v s F; cbn;
    (split; [payload_closures H1|first [exact H2|payload_log H1 H2]]).
Qed.

Lemma Payloads_run v es : forall s s', Payloads s -> run v s es = Some s' -> Payloads s'.
Proof.
  induction es as [|e es IH]; simpl; intros s s' H R.
  - inversion R; subst; exact H.
  - destruct (step v s e) as [s1|] eqn:E; [|discriminate].
    eapply IH; [|exact R]. eapply Payloads_step; eauto.
Qed.

(** X9.  Every POST to process_prompt carries a prompt or file data, never
    both: with a prompt the file data is null, and the prompt is not empty
    and has no white space at either end, white space being every
    character that [trim] strips (TAB, LF, VT, FF, CR, SPACE, NO-BREAK
    SPACE, the other space separators, LS, PS and ZERO WIDTH NO-BREAK
    SPACE). *)
Theorem post_carries_prompt_or_file (v : variant) (es : list event) (s : state)
    (t rid job : N) (p fd : option string) :
  run v init es = Some s ->
  In (t, Fetch rid (KSubmit job) (ProcessPrompt p fd)) (log s) ->
  payload_ok p fd.
Proof.
  intros R. assert (P : Payloads s).
  { apply (Payloads_run v es init); [|exact R]. split; [discriminate|intros ? ? ? ? ? []]. }
  apply P.
Qed.

Lemma post_carries_prompt_or_file_witness :
  exists s,
    run Part000 init padded_prompt_posted = Some s /\
    In (5000, Fetch 7 (KSubmit 2) (ProcessPrompt (Some "hello") None)) (log s) /\
    payload_ok (Some "hello") None.
Proof.
  eexists. split; [vm_compute; reflexivity|].
  split; [vm_compute; tauto|].
  refine (post_carries_prompt_or_file Part000 padded_prompt_posted _
            5000 7 2 (Some "hello") None _ _).
  - vm_compute; reflexivity.
  - vm_compute; tauto.
Defined.

(** ** Which files are read *)

Lemma In_take {K V : Type} (eqb : K -> K -> bool) (k : K) (l : list (K * V)) x rest :
  take eqb k l = Some (x, rest) ->
  (exists k', In (k', x) l) /\ (forall e, In e rest -> In e l).
Proof.
  revert x rest. induction l as [|[k' y] l IH]; simpl; intros x rest T; [discriminate|].
  destruct (eqb k' k).
  - injection T as <- <-. split; [exists k'; now left|intros e; now right].
  - destruct (take eqb k l) as [[x' r']|]; [|discriminate].
    injection T as <- <-. destruct (IH _ _ eq_refl) as [[k0 I0] S0].
    split; [exists k0; now right|]. intros e [<-|I]; [now left|right; auto].
Qed.

Lemma handleFileSelection_valid (v : variant) (f : file) (s : state) :
  handleFileSelection v (Some f) s
  = if valid_file v f then readAsDataURL f s else alert (rejection v f) s.
Proof.
  unfold handleFileSelection, valid_file, rejection.
  rewrite extension_check_is_suffix_match, N.ltb_antisym.
  destruct v; cbn [andb negb];
    [|destruct (existsb _ allowedExtensions); cbn [andb negb]; [|reflexivity]];
    destruct (size f <=? 5 * 1024 * 1024); reflexivity.
Qed.

(** X10.  [handleFileSelection] hands a file to the reader exactly when it
    is valid: at most 5 MiB (5 MiB itself passes) and, in the second
    revision, a name that ends in .txt, .pdf or .docx in any letter case.
    Every other file is answered with one dialog and nothing else; the
    second revision names the extension first when both checks fail.
    Without a selected file nothing happens. *)
Theorem handleFileSelection_reads_iff_valid (v : variant) (f : file) (s : state) :
  handleFileSelection v (Some f) s
  = (if valid_file v f then readAsDataURL f s else alert (rejection v f) s) /\
  handleFileSelection v None s = s.
Proof. split; [apply handleFileSelection_valid|reflexivity]. Qed.

Lemma valid_file_ScriptJs (f : file) :
  (5 * 1024 * 1024 <? size f) = false -> valid_file ScriptJs f = true.
Proof. unfold valid_file. rewrite N.ltb_antisym. now intros ->%negb_false_iff. Qed.

Lemma valid_file_Part000 (f : file) :
  Str.includes allowedExtensions (fileExtension f) = true ->
  (5 * 1024 * 1024 <? size f) = false -> valid_file Part000 f = true.
Proof.
  unfold valid_file. rewrite extension_check_is_suffix_match, N.ltb_antisym.
  now intros -> ->%negb_false_iff.
Qed.

Ltac uploads_readers H1 :=
  first
    [ exact H1
    | let I0 := fresh "I" in
      intros ? ? I0; apply in_app_iff in I0 as [I0|[I0|[]]]; [exact (H1 _ _ I0)|];
      injection I0 as _ <-;
      first [apply valid_file_ScriptJs|apply valid_file_Part000]; assumption
    | match goal with T : take _ _ _ = Some _ |- _ =>
        let I0 := fresh "I" in
        apply In_take in T as [_ T]; intros ? ? I0; exact (H1 _ _ (T _ I0))
      end ].

Ltac uploads_log H1 H2 :=
  first
    [ exact H2
    | let I0 := fresh "I" in
      intros ? ? ? ? I0; cbn [In] in I0;
      repeat (destruct I0 as [I0|I0]; [try discriminate I0|]);
      first
        [ exact (H2 _ _ _ _ I0)
        | injection I0 as _ _ <- <-;
          match goal with T : take _ _ _ = Some (?f, _) |- _ =>
            apply In_take in T as [[? T] _]; specialize (H1 _ _ T);
            destruct f; exact H1
          end ] ].

Lemma Uploads_step v s e s' : Uploads v s -> step v s e = Some s' -> Uploads v s'.
Proof.
  unfold Uploads. intros [H1 H2] F.
  leaves v s F; cbn -[valid_file]; (split; [uploads_readers H1|uploads_log H1 H2]).
Qed.

Lemma Uploads_run v es : forall s s', Uploads v s -> run v s es = Some s' -> Uploads v s'.
Proof.
  induction es as [|e es IH]; simpl; intros s s' H R.
  - inversion R; subst; exact H.
  - destruct (step v s e) as [s1|] eqn:E; [|discriminate].
    eapply IH; [|exact R]. eapply Uploads_step; eauto.
Qed.

(** X11.  Only valid files get any further: every file a reader is reading,
    and every file announced in the chat (the step at which its job
    starts), is at most 5 MiB and, in the second revision, has an allowed
    extension. *)
Theorem only_valid_files_are_uploaded (v : variant) (es : list event) (s : state) :
  run v init es = Some s ->
  (forall rd f, In (rd, f) (readers s) -> valid_file v f = true) /\
  (forall t id n sz,
     In (t, ChatAppend {| el_id := id; el_body := Plain User (MUpload n sz) |}) (log s) ->
     valid_file v {| name := n; size := sz |} = true).
Proof.
  intros R. apply (Uploads_run v es init); [|exact R].
  split; [intros ? ? []|intros ? ? ? ? []].
Qed.

Lemma only_valid_files_are_uploaded_witness :
  exists s,
    run Part000 init two_submissions = Some s /\
    In (0, ChatAppend {| el_id := 2; el_body := Plain User (MUpload "Report.PDF" 5242880) |})
       (log s) /\
    valid_file Part000 {| name := "Report.PDF"; size := 5242880 |} = true.
Proof.
  eexists. split; [vm_compute; reflexivity|].
  split; [vm_compute; tauto|].
  refine (proj2 (only_valid_files_are_uploaded Part000 two_submissions _ _) 0 2 _ _ _).
  - vm_compute; reflexivity.
  - vm_compute; tauto.
Defined.
